(** * urandom-fast (poc_char.c): the xorshift128+ generator, its per-CPU
      seeding, the byte-fill service and the device read path.

    The C code works on [uint64_t], [size_t]/[unsigned long] (64 bits, LP64)
    and [int] (32 bits).  Such integers are modelled as [Z] with the
    wrap-around written out. *)

From Stdlib Require Import ZArith List Lia Bool Znumtheory Btauto.
From Stdlib Require Import String Ascii.
From stdpp Require Import base list.
From Equations Require Import Equations.
Import ListNotations.

Local Open Scope Z_scope.

(** ** Machine integers *)

Definition u64_mod : Z := 2 ^ 64.

(** Truncation of a mathematical integer to [uint64_t]. *)
Definition wrap64 (x : Z) : Z := x mod u64_mod.

Definition is_u64 (x : Z) : Prop := 0 <= x < u64_mod.

(** ** StreamState: [uint64_t s[2]] *)

Record state : Type := State { s0 : Z; s1 : Z }.

Definition state_ok (s : state) : Prop := is_u64 (s0 s) /\ is_u64 (s1 s).

Definition zero_state : state := State 0 0.

(** ** Transition: [spl_rand_next]

    The statements of the C function in order; [w0] and [w1] are the two
    array cells, [x1] and [x0] the locals [s1] and [s0]. *)
Definition spl_rand_next (s : state) : state * Z :=
  let x1 := s0 s in
  let x0 := s1 s in
  let w0 := x0 in
  let x1 := Z.lxor x1 (wrap64 (Z.shiftl x1 23)) in
  let w1 := Z.lxor (Z.lxor (Z.lxor x1 x0) (Z.shiftr x1 18)) (Z.shiftr x0 5) in
  (State w0 w1, wrap64 (w1 + x0)).

(** The state after [n] calls of [spl_rand_next]. *)
Definition next_state (s : state) : state := fst (spl_rand_next s).

Definition next_iter (n : N) (s : state) : state := N.iter n next_state s.

(** ** JumpAhead: [spl_rand_jump] *)

Definition JUMP : list Z := [0x8a5cd789635d2dff; 0x121fd2155c472f96].

(** [s0 ^= s[0]; s1 ^= s[1]] on the two accumulator words. *)
Definition state_xor (a b : state) : state :=
  State (Z.lxor (s0 a) (s0 b)) (Z.lxor (s1 a) (s1 b)).

(** The body of the inner [for (b = 0; b < 64; b++)] loop for the word [w]
    of [JUMP]; the loop state is the accumulator pair and the running
    state [s]. *)
Definition jump_body (w : Z) (st : state * state) (b : nat) : state * state :=
  let '(acc, s) := st in
  let acc := if Z.land w (Z.shiftl 1 (Z.of_nat b)) =? 0 then acc
             else state_xor acc s in
  (acc, next_state s).

Definition jump_word (st : state * state) (w : Z) : state * state :=
  fold_left (jump_body w) (seq 0 64) st.

Definition spl_rand_jump (s : state) : state :=
  fst (fold_left jump_word JUMP (zero_state, s)).

(** ** Byte order of the host

    [random_get_pseudo_bytes] reads the bytes of a [uint64_t] through a
    union, [poc_read] stores a [uint64_t] through a cast pointer and
    [spl_random_init] copies a string over two [uint64_t]: all three
    depend on the order in which the host lays out the bytes of a word. *)

Inductive byte_order : Type := LittleEndian | BigEndian.

(** Byte number [k] of [w], counted from the least significant one. *)
Definition byte_of (w : Z) (k : Z) : Z := Z.land (Z.shiftr w (8 * k)) 255.

(** [entropy.byte[0..7]] when [entropy.ui64 = w]. *)
Definition union_bytes (bo : byte_order) (w : Z) : list Z :=
  match bo with
  | LittleEndian => map (fun j => byte_of w (Z.of_nat j)) (seq 0 8)
  | BigEndian => map (fun j => byte_of w (7 - Z.of_nat j)) (seq 0 8)
  end.

Fixpoint le_combine (l : list Z) : Z :=
  match l with
  | [] => 0
  | b :: l' => b + 256 * le_combine l'
  end.

(** The [uint64_t] that occupies the eight bytes [l] in memory. *)
Definition load_u64 (bo : byte_order) (l : list Z) : Z :=
  match bo with
  | LittleEndian => le_combine l
  | BigEndian => le_combine (rev l)
  end.

(** ** Memory: byte-addressed, a pointer is an address *)

Definition mem : Type := Z -> Z.

Definition store (m : mem) (a v : Z) : mem :=
  fun x => if x =? a then v else m x.

Fixpoint store_bytes (m : mem) (a : Z) (l : list Z) : mem :=
  match l with
  | [] => m
  | b :: l' => store_bytes (store m a b) (a + 1) l'
  end.

(** [*(uint64_t * )a = w] *)
Definition store_u64 (bo : byte_order) (m : mem) (a w : Z) : mem :=
  store_bytes m a (union_bytes bo w).

(** ** PerUnitRegistry: the per-CPU area [spl_pseudo_entropy]

    One [state] per possible CPU, indexed by CPU number.  [get_cpu_ptr]
    gives the slot of the CPU the caller runs on (and disables preemption
    until [put_cpu_ptr]). *)

Abbreviation percpu := (list state).

Definition get_cpu_ptr (reg : percpu) (cpu : nat) : state :=
  nth cpu reg zero_state.

(** ** ByteFillService: [random_get_pseudo_bytes] *)

Definition MIN (a b : Z) : Z := if a <? b then a else b.

(** [while (i--) *ptr++ = entropy.byte[i];] *)
Fixpoint emit_bytes (bytes : list Z) (i : nat) (m : mem) (ptr : Z) : mem * Z :=
  match i with
  | O => (m, ptr)
  | S i' => emit_bytes bytes i' (store m ptr (nth i' bytes 0)) (ptr + 1)
  end.

(** The [while (len)] loop over the locals [s], [ptr] and [len]; [len] is
    unsigned, so [len != 0] is [0 < len].  Every round takes
    [MIN(len, 8) > 0] from [len], which is the termination argument. *)
Equations? fill_loop (bo : byte_order) (s : state) (m : mem) (ptr len : Z)
  : state * mem * Z by wf (Z.to_nat len) lt :=
  fill_loop bo s m ptr len with Z_lt_dec 0 len := {
    | left _ =>
        let i := MIN len 8 in
        let len' := len - i in
        let '(s', ui64) := spl_rand_next s in
        let '(m', ptr') := emit_bytes (union_bytes bo ui64) (Z.to_nat i) m ptr in
        fill_loop bo s' m' ptr' len'
    | right _ => (s, m, ptr) }.
Proof. subst len' i. unfold MIN. destruct (Z.ltb_spec len 8); lia. Qed.

(** The whole function: the result code, the per-CPU area and the memory it
    leaves.  [cpu] is the CPU the caller runs on. *)
Definition random_get_pseudo_bytes (bo : byte_order) (reg : percpu) (cpu : nat)
    (m : mem) (ptr len : Z) : Z * percpu * mem :=
  let xp := get_cpu_ptr reg cpu in
  let s := State (s0 xp) (s1 xp) in
  let '(s, m', _) := fill_loop bo s m ptr len in
  let reg' := <[cpu := State (s0 s) (s1 s)]> reg in
  (0, reg', m').

(** ** BulkTransferPath: [poc_read] *)

(** Conversion of an integer to [int] (32 bits) and to [ssize_t]
    (64 bits), as the kernel's compiler does it: modulo the width. *)
Definition wrap_int (x : Z) : Z := (x + 2 ^ 31) mod 2 ^ 32 - 2 ^ 31.
Definition wrap_ssize (x : Z) : Z := (x + 2 ^ 63) mod 2 ^ 64 - 2 ^ 63.

(** [P2ROUNDUP(x, align)] on [size_t] operands. *)
Definition P2ROUNDUP (x align : Z) : Z :=
  wrap64 (Z.lor (wrap64 (x - 1)) (wrap64 (align - 1)) + 1).

(** The two error numbers [poc_read] and [spl_random_init] return, with
    the values of the kernel's [errno] header. *)
Definition EFAULT : Z := 14.
Definition ENOMEM : Z := 12.

(** What [poc_read] takes from the kernel around it.  [vmalloc] gives the
    address of the block, 0 for [NULL].  [copy_budget k] is the number of
    bytes the [k]-th call of [copy_to_user] is able to transfer before the
    destination faults. *)
Record kernel : Type := Kernel {
  access_ok : Z -> Z -> bool;
  vmalloc : Z -> Z;
  copy_budget : nat -> Z
}.

(** [copy_to_user(to, from, n)]: copies a prefix of the [n] bytes from
    kernel memory [km] to user memory [um] and returns the number of bytes
    it did not copy. *)
Definition copy_to_user (budget : Z) (um km : mem) (to from n : Z) : mem * Z :=
  let k := Z.min n (Z.max 0 budget) in
  (fun a => if (to <=? a) && (a <? to + k) then km (from + (a - to)) else um a,
   n - k).

(** One call of [copy_to_user] as the loop issues it: offset into both
    buffers and byte count asked for. *)
Record copy_req : Type := CopyReq { req_off : Z; req_len : Z }.

(** The [for (i = 0; i < len; i += sizeof (uint64_t))] loop.  [i] is an
    [int]; it is converted to [size_t] for the comparison and for the
    addition and back to [int] by the assignment.  [xp] points into the
    per-CPU area, so every call of [spl_rand_next] updates the slot of
    [cpu] in place.  [None]: the loop has not ended within [fuel] rounds. *)
Fixpoint generate_loop (fuel : nat) (bo : byte_order) (reg : percpu) (cpu : nat)
    (km : mem) (buf len i : Z) : option (percpu * mem) :=
  if wrap64 i <? len then
    match fuel with
    | O => None
    | S fuel' =>
        let '(xp', ui64) := spl_rand_next (get_cpu_ptr reg cpu) in
        let reg' := <[cpu := xp']> reg in
        let km' := store_u64 bo km (buf + i) ui64 in
        generate_loop fuel' bo reg' cpu km' buf len (wrap_int (wrap64 (wrap64 i + 8)))
    end
  else Some (reg, km).

(** The [while (left != 0)] loop over [left], [copied] and user memory;
    [k] counts the calls of [copy_to_user] and [tr] records them, latest
    first.  [None]: the loop has not ended within [fuel] rounds. *)
Fixpoint copy_loop (fuel : nat) (budget : nat -> Z) (km : mem) (buffer buf len : Z)
    (k : nat) (tr : list copy_req) (um : mem) (left copied : Z)
  : option (mem * list copy_req) :=
  if left =? 0 then Some (um, tr)
  else
    match fuel with
    | O => None
    | S fuel' =>
        let '(um', left') :=
          copy_to_user (budget k) um km (buffer + copied) (buf + copied) len in
        let copied' := wrap64 (len - left') in
        copy_loop fuel' budget km buffer buf len (S k)
                  (CopyReq copied len :: tr) um' left' copied'
    end.

(** What a call of [poc_read] leaves behind. *)
Record read_result : Type := ReadResult {
  rr_ret : Z;                  (* the value returned *)
  rr_reg : percpu;             (* the per-CPU area *)
  rr_user : mem;               (* user memory *)
  rr_kernel : mem;             (* kernel memory, the freed scratch block included *)
  rr_alloc : option Z;         (* the size asked of vmalloc, when it was called *)
  rr_copies : list copy_req    (* the calls of copy_to_user, in order *)
}.

(** [poc_read(filep, buffer, len, offset)]; [filep] and [offset] are not
    used by the function.  [None]: one of the two loops has not ended
    within [fuel] rounds. *)
Definition poc_read (fuel : nat) (bo : byte_order) (K : kernel) (reg : percpu)
    (cpu : nat) (um km : mem) (buffer len : Z) : option read_result :=
  let copied := 0 in
  let left := len in
  if negb (access_ok K buffer len) then
    Some (ReadResult (- EFAULT) reg um km None [])
  else
    let size := P2ROUNDUP len 8 in
    let buf := vmalloc K size in
    if buf =? 0 then
      Some (ReadResult (- ENOMEM) reg um km (Some size) [])
    else
      match generate_loop fuel bo reg cpu km buf len 0 with
      | None => None
      | Some (reg', km') =>
          match copy_loop fuel (copy_budget K) km' buffer buf len 0 [] um left copied with
          | None => None
          | Some (um', tr) =>
              Some (ReadResult (wrap_ssize len) reg' um' km' (Some size) (rev tr))
          end
      end.

(** ** Seeding: [spl_random_init] *)

(** What [spl_random_init] takes from the kernel: whether
    [__alloc_percpu] succeeds, the number of possible CPUs (numbered from
    0), the 16 bytes of [get_random_bytes] as two words, and [jiffies].
    [jiffies] is a volatile counter that the timer advances: every
    mention of it in the code is a read of its own, and [jiffies B k] is
    the value the [k]-th read gives (the function makes three). *)
Record boot : Type := Boot {
  alloc_percpu_ok : bool;
  possible_cpus : nat;
  random_bytes : state;
  jiffies : nat -> Z
}.

(** The 16 bytes of the string literal, its terminating NUL included. *)
Definition improbable_seed_bytes : list Z :=
  map (fun c => Z.of_N (Ascii.N_of_ascii c))
      (String.list_ascii_of_string "improbable seed"%string) ++ [0].

(** [memcpy(s, "improbable seed", sizeof (s))] *)
Definition improbable_seed (bo : byte_order) : state :=
  State (load_u64 bo (firstn 8 improbable_seed_bytes))
        (load_u64 bo (firstn 8 (skipn 8 improbable_seed_bytes))).

(** The local [s] when the [for_each_possible_cpu] loop starts: the
    RootSeed.  The test [jiffies != 0] is read 0 of [jiffies], the
    assignment to [s[0]] read 1 and the one to [s[1]] read 2. *)
Definition root_seed (bo : byte_order) (B : boot) : state :=
  let s := random_bytes B in
  if (s0 s =? 0) && (s1 s =? 0) then
    if negb (jiffies B 0 =? 0) then
      State (jiffies B 1) (wrap64 (wrap64 (Z.lnot 0) - jiffies B 2))
    else improbable_seed bo
  else s.

(** One round of [for_each_possible_cpu]: jump the running state [s] and
    copy it to the slot of CPU [i]. *)
Definition seed_cpu (st : state * percpu) (i : nat) : state * percpu :=
  let '(s, reg) := st in
  let s := spl_rand_jump s in
  (s, <[i := State (s0 s) (s1 s)]> reg).

(** The result code and, when the allocation succeeded, the per-CPU area
    ([__alloc_percpu] hands out zeroed memory). *)
Definition spl_random_init (bo : byte_order) (B : boot) : Z * option percpu :=
  if negb (alloc_percpu_ok B) then (- ENOMEM, None)
  else
    let reg := replicate (possible_cpus B) zero_state in
    let s := root_seed bo B in
    let '(_, reg) := fold_left seed_cpu (seq 0 (possible_cpus B)) (s, reg) in
    (0, Some reg).

(** ** Module load and unload: [init_module], [cleanup_module]

    The global pointer [spl_pseudo_entropy], the per-CPU block it points to
    and the registration of the device [poc_misc].  [entropy_ptr] tells
    whether the pointer is not [NULL]; [free_percpu] does not reset it, so
    it can point to a block that is no longer allocated.  [entropy_area]
    is the live block, [None] when there is none. *)
Record driver : Type := Driver {
  entropy_ptr : bool;
  entropy_area : option percpu;
  misc_registered : bool
}.

(** The state in which the module is loaded: the pointer is [NULL] and
    the device is not registered. *)
Definition unloaded : driver := Driver false None false.

(** [free_percpu(spl_pseudo_entropy)].  [free_percpu] is the kernel's: it
    ignores [NULL] and releases a live block; the pointer stays as it is.
    Releasing a block that is not allocated is outside its contract, and
    so is everything after it: [None]. *)
Definition spl_random_fini (d : driver) : option driver :=
  if negb (entropy_ptr d) then Some d
  else
    match entropy_area d with
    | Some _ => Some (Driver true None (misc_registered d))
    | None => None
    end.

(** [misc_deregister(&poc_misc)], the kernel's: it removes a registered
    device; for a device that is not registered it is outside its
    contract, [None]. *)
Definition misc_deregister (d : driver) : option driver :=
  if misc_registered d
  then Some (Driver (entropy_ptr d) (entropy_area d) false)
  else None.

(** [init_module] runs once, when the module is loaded, from the
    [unloaded] state.  [misc_register] is the kernel's: [misc_err] is what
    it returns, 0 when it registered the device. *)
Definition init_module (bo : byte_order) (B : boot) (misc_err : Z)
  : Z * option driver :=
  let '(error, area) := spl_random_init bo B in
  let d := Driver (match area with Some _ => true | None => false end) area
                  (misc_registered unloaded) in
  if negb (error =? 0) then (error, Some d)
  else
    let error := misc_err in
    if negb (error =? 0) then (error, spl_random_fini d)
    else (0, Some (Driver (entropy_ptr d) (entropy_area d) true)).

(** [misc_deregister(&poc_misc); spl_random_fini();] *)
Definition cleanup_module (d : driver) : option driver :=
  match misc_deregister d with
  | Some d' => spl_random_fini d'
  | None => None
  end.

(** ** The byte stream of a state, as the specification words it

    The [q]-th 64-bit output of the stream that starts at [s]. *)
Definition stream_word (s : state) (q : nat) : Z :=
  snd (spl_rand_next (Nat.iter q next_state s)).

(** The eight bytes of a word, most significant first, and least
    significant first. *)
Definition be_bytes (w : Z) : list Z :=
  map (fun j => byte_of w (7 - Z.of_nat j)) (seq 0 8).
Definition le_bytes (w : Z) : list Z :=
  map (fun j => byte_of w (Z.of_nat j)) (seq 0 8).

(** [words] whole output words, each laid out by [emit], then the last
    [rest] bytes of the layout of one more word when [rest] is not 0. *)
Fixpoint fill_spec (emit : Z -> list Z) (words rest : nat) (s : state) : list Z :=
  match words with
  | O => if Nat.eqb rest 0 then []
         else skipn (8 - rest) (emit (snd (spl_rand_next s)))
  | S n => emit (snd (spl_rand_next s)) ++ fill_spec emit n rest (next_state s)
  end.

(** The order in which [random_get_pseudo_bytes] lays out a word: it walks
    the union's bytes from index 7 down to 0. *)
Definition emission (bo : byte_order) : Z -> list Z :=
  match bo with
  | LittleEndian => be_bytes
  | BigEndian => le_bytes
  end.

(** Byte number [r] of a group of [c] bytes that [random_get_pseudo_bytes]
    takes from the output word [w]: on a little-endian host the [c] least
    significant bytes of [w], the most significant of them first; on a
    big-endian host the [c] most significant bytes, the least significant
    of them first. *)
Definition emitted_byte (bo : byte_order) (w c r : Z) : Z :=
  byte_of w (match bo with
             | LittleEndian => c - 1 - r
             | BigEndian => 8 - c + r
             end).

(** Byte [r] of the word [w] as it lies in memory. *)
Definition native_byte (bo : byte_order) (w r : Z) : Z :=
  byte_of w (match bo with
             | LittleEndian => r
             | BigEndian => 7 - r
             end).

(** The number of output words a request of [len] bytes consumes. *)
Definition words_for (len : Z) : nat := Z.to_nat ((len + 7) / 8).

(** A state a generator can run from: two 64-bit words, not both zero. *)
Definition seeded (s : state) : Prop := state_ok s /\ s <> zero_state.

(** ** Matrices over GF(2), to reason about the jump

    [spl_rand_next] acts on the 128 bits of the state as a linear map over
    GF(2).  A linear map is given by its values on the 128 unit vectors:
    [m_lo] holds the images of the bits of [s[0]], [m_hi] those of the
    bits of [s[1]], least significant bit first. *)

Record matrix : Type := Matrix { m_lo : list state; m_hi : list state }.

Definition unit_lo (j : nat) : state := State (Z.shiftl 1 (Z.of_nat j)) 0.
Definition unit_hi (j : nat) : state := State 0 (Z.shiftl 1 (Z.of_nat j)).

Definition matrix_of (f : state -> state) : matrix :=
  Matrix (map (fun j => f (unit_lo j)) (seq 0 64))
         (map (fun j => f (unit_hi j)) (seq 0 64)).

(** The xor of [acc] and the columns selected by the bits of [x]. *)
Fixpoint xor_sel (cols : list state) (x : Z) (acc : state) : state :=
  match cols with
  | [] => acc
  | c :: cols' =>
      xor_sel cols' (Z.div2 x) (if Z.odd x then state_xor acc c else acc)
  end.

Definition mat_apply (M : matrix) (s : state) : state :=
  xor_sel (m_hi M) (s1 s) (xor_sel (m_lo M) (s0 s) zero_state).

Definition mat_square (M : matrix) : matrix :=
  Matrix (map (mat_apply M) (m_lo M)) (map (mat_apply M) (m_hi M)).

(** A map on states that commutes with xor. *)
Definition additive (f : state -> state) : Prop :=
  forall a b, f (state_xor a b) = state_xor (f a) (f b).

(** Xor of two states of the jump loops, componentwise. *)
Definition pair_xor (p q : state * state) : state * state :=
  (state_xor (fst p) (fst q), state_xor (snd p) (snd q)).

(** * Properties *)

(** ** 64-bit words *)

Lemma u64_mod_pos : 0 < u64_mod.
Proof. reflexivity. Qed.

Lemma wrap64_u64 (x : Z) : is_u64 (wrap64 x).
Proof. unfold is_u64, wrap64. apply Z.mod_pos_bound, u64_mod_pos. Qed.

Lemma wrap64_small (x : Z) : is_u64 x -> wrap64 x = x.
Proof. intros H. apply Z.mod_small, H. Qed.

Lemma wrap64_land (x : Z) : wrap64 x = Z.land x (Z.ones 64).
Proof. unfold wrap64, u64_mod. now rewrite Z.land_ones. Qed.

Lemma wrap64_lxor (x y : Z) :
  wrap64 (Z.lxor x y) = Z.lxor (wrap64 x) (wrap64 y).
Proof.
  rewrite !wrap64_land. apply Z.bits_inj'; intros n _.
  rewrite !Z.land_spec, !Z.lxor_spec, !Z.land_spec.
  now destruct (Z.testbit x n), (Z.testbit y n), (Z.testbit (Z.ones 64) n).
Qed.

Lemma lxor_u64 (x y : Z) : is_u64 x -> is_u64 y -> is_u64 (Z.lxor x y).
Proof.
  intros Hx Hy. rewrite <- (wrap64_small x Hx), <- (wrap64_small y Hy).
  rewrite <- wrap64_lxor. apply wrap64_u64.
Qed.

Lemma shiftr_u64 (x n : Z) : is_u64 x -> 0 <= n -> is_u64 (Z.shiftr x n).
Proof.
  unfold is_u64. intros [H0 H1] Hn. rewrite Z.shiftr_div_pow2 by assumption.
  assert (0 < 2 ^ n) by (apply Z.pow_pos_nonneg; lia).
  split.
  - apply Z.div_pos; assumption.
  - apply Z.le_lt_trans with x; [|assumption].
    apply Z.div_le_upper_bound; [assumption|]. nia.
Qed.

Create HintDb u64.
#[local] Hint Resolve wrap64_u64 lxor_u64 shiftr_u64 : u64.

(** ** Transition *)

Lemma next_state_eq (s : state) :
  next_state s =
  let t := Z.lxor (s0 s) (wrap64 (Z.shiftl (s0 s) 23)) in
  State (s1 s)
        (Z.lxor (Z.lxor (Z.lxor t (s1 s)) (Z.shiftr t 18)) (Z.shiftr (s1 s) 5)).
Proof. reflexivity. Qed.

Lemma next_state_ok (s : state) : state_ok s -> state_ok (next_state s).
Proof.
  intros [H0 H1]. rewrite next_state_eq. split; cbn [s0 s1].
  - assumption.
  - auto 10 with u64 zarith.
Qed.

Lemma spl_rand_next_output_u64 (s : state) : is_u64 (snd (spl_rand_next s)).
Proof. apply wrap64_u64. Qed.

Lemma next_iter_ok (n : N) (s : state) : state_ok s -> state_ok (next_iter n s).
Proof. intros H. unfold next_iter. now apply N.iter_invariant; [apply next_state_ok|]. Qed.

(** C5. One call of [spl_rand_next] on the state [(a, b)] leaves the state
    [(b, t ^ b ^ (t >> 18) ^ (b >> 5))] with [t = a ^ (a << 23)], the left
    shift cut to 64 bits, and returns the sum of the new second word and
    [b] modulo [2^64]; all words stay within 64 bits. *)
Theorem spl_rand_next_spec (a b : Z) (Ha : is_u64 a) (Hb : is_u64 b) :
  let t := Z.lxor a ((a * 2 ^ 23) mod 2 ^ 64) in
  let n := Z.lxor (Z.lxor (Z.lxor t b) (t / 2 ^ 18)) (b / 2 ^ 5) in
  spl_rand_next (State a b) = (State b n, (n + b) mod 2 ^ 64)
  /\ is_u64 t /\ is_u64 n.
Proof.
  intros t n.
  assert (Et : t = Z.lxor a (wrap64 (Z.shiftl a 23))).
  { unfold t, wrap64, u64_mod. now rewrite Z.shiftl_mul_pow2 by lia. }
  assert (En : n = Z.lxor (Z.lxor (Z.lxor t b) (Z.shiftr t 18)) (Z.shiftr b 5)).
  { unfold n. now rewrite !Z.shiftr_div_pow2 by lia. }
  assert (Ht : is_u64 t) by (rewrite Et; auto with u64).
  split; [|split].
  - unfold spl_rand_next; cbn [s0 s1]. rewrite <- Et, <- En. reflexivity.
  - exact Ht.
  - rewrite En. apply lxor_u64; [apply lxor_u64; [apply lxor_u64|]|];
      auto with u64 zarith.
Qed.

Lemma spl_rand_next_spec_witness :
  spl_rand_next (State 1 2) = (State 2 8388643, 8388645).
Proof.
  assert (H1 : is_u64 1) by (unfold is_u64, u64_mod; lia).
  assert (H2 : is_u64 2) by (unfold is_u64, u64_mod; lia).
  exact (proj1 (spl_rand_next_spec 1 2 H1 H2)).
Defined.

(** [x ^ (x >> 18)] and [x ^ (x << 23)] vanish only at [x = 0]: the two
    halves of the xorshift step are injective. *)
Lemma xorshift_right_zero (t n : Z) :
  0 <= t -> 0 < n -> Z.lxor t (Z.shiftr t n) = 0 -> t = 0.
Proof.
  intros Ht Hn H. apply Z.lxor_eq in H.
  rewrite Z.shiftr_div_pow2 in H by lia.
  assert (1 < 2 ^ n) by (apply Z.pow_gt_1; lia).
  destruct (Z.eq_dec t 0) as [|Hne]; [assumption|exfalso].
  assert (t / 2 ^ n < t) by (apply Z.div_lt; lia).
  lia.
Qed.

Lemma xorshift_left_zero (a : Z) :
  is_u64 a -> Z.lxor a (wrap64 (Z.shiftl a 23)) = 0 -> a = 0.
Proof.
  intros Ha H. apply Z.lxor_eq in H.
  unfold wrap64 in H. rewrite Z.shiftl_mul_pow2 in H by lia.
  assert (D : (u64_mod | a * (2 ^ 23 - 1))).
  { exists ((a * 2 ^ 23) / u64_mod).
    pose proof (Z.div_mod (a * 2 ^ 23) u64_mod) as E.
    specialize (E ltac:(unfold u64_mod; lia)). lia. }
  rewrite Z.mul_comm in D. apply Z.gauss in D; [|reflexivity].
  destruct D as [k Hk]. unfold is_u64 in Ha.
  assert (k = 0) by (pose proof u64_mod_pos; nia).
  subst k. lia.
Qed.

Lemma next_state_zero_inv (s : state) :
  state_ok s -> next_state s = zero_state -> s = zero_state.
Proof.
  destruct s as [a b]. intros [Ha Hb]; cbn [s0 s1] in *.
  rewrite next_state_eq; cbn [s0 s1]. unfold zero_state.
  intros E. injection E as Eb E. subst b.
  rewrite Z.shiftr_0_l, !Z.lxor_0_r in E.
  apply xorshift_right_zero in E; [| |lia].
  - apply xorshift_left_zero in E; [|assumption]. now subst a.
  - apply Z.lxor_nonneg. pose proof (wrap64_u64 (Z.shiftl a 23)) as W.
    unfold is_u64 in *. lia.
Qed.

(** The all-zero state is a fixed point of the transition. *)
Lemma next_state_zero : next_state zero_state = zero_state.
Proof. reflexivity. Qed.

(** C8. A state that is not all-zero is not all-zero after one call of
    [spl_rand_next], and so after any number of calls. *)
Theorem next_state_nonzero (s : state)
    (Hok : state_ok s) (Hnz : s <> zero_state) :
  next_state s <> zero_state /\
  forall n : N, next_iter n s <> zero_state.
Proof.
  split.
  - intros E. apply Hnz. now apply next_state_zero_inv.
  - intros n.
    cut (state_ok (next_iter n s) /\ next_iter n s <> zero_state); [tauto|].
    unfold next_iter.
    apply N.iter_invariant with (Inv := fun x => state_ok x /\ x <> zero_state).
    + intros x [Hx Hx']. split; [now apply next_state_ok|].
      intros E. apply Hx'. now apply next_state_zero_inv.
    + now split.
Qed.

Lemma next_state_nonzero_witness :
  next_state (State 1 0) <> zero_state /\
  forall n : N, next_iter n (State 1 0) <> zero_state.
Proof.
  apply (next_state_nonzero (State 1 0)).
  - split; cbn; unfold is_u64, u64_mod; lia.
  - discriminate.
Defined.

(** ** The transition is linear over GF(2) *)

Ltac xor_bits :=
  apply Z.bits_inj'; intros ? _; rewrite ?Z.lxor_spec; btauto.

Lemma state_xor_zero_r (a : state) : state_xor a zero_state = a.
Proof. destruct a. unfold state_xor; cbn. now rewrite !Z.lxor_0_r. Qed.

Lemma state_xor_zero_l (a : state) : state_xor zero_state a = a.
Proof. destruct a. unfold state_xor; cbn. now rewrite !Z.lxor_0_l. Qed.

Lemma state_xor_nilpotent (a : state) : state_xor a a = zero_state.
Proof. unfold state_xor. now rewrite !Z.lxor_nilpotent. Qed.

Lemma state_xor_assoc (a b c : state) :
  state_xor (state_xor a b) c = state_xor a (state_xor b c).
Proof. unfold state_xor; cbn. now rewrite !Z.lxor_assoc. Qed.

Lemma state_xor_swap (a b c d : state) :
  state_xor (state_xor a b) (state_xor c d) =
  state_xor (state_xor a c) (state_xor b d).
Proof. unfold state_xor; cbn. f_equal; xor_bits. Qed.

Lemma state_xor_ok (a b : state) :
  state_ok a -> state_ok b -> state_ok (state_xor a b).
Proof. intros [] []. split; cbn; auto with u64. Qed.

Lemma additive_zero (f : state -> state) :
  additive f -> f zero_state = zero_state.
Proof.
  intros H. rewrite <- (state_xor_nilpotent zero_state) at 1.
  rewrite H. apply state_xor_nilpotent.
Qed.

Lemma additive_compose (f g : state -> state) :
  additive f -> additive g -> additive (fun s => f (g s)).
Proof. intros Hf Hg a b. now rewrite Hg, Hf. Qed.

Lemma next_state_additive : additive next_state.
Proof.
  intros [a c] [b d]. rewrite !next_state_eq. unfold state_xor; cbn [s0 s1].
  f_equal.
  rewrite !Z.shiftl_lxor, !wrap64_lxor, !Z.shiftr_lxor.
  xor_bits.
Qed.

Lemma next_iter_additive (n : N) : additive (next_iter n).
Proof.
  unfold next_iter. induction n as [|n IH] using N.peano_ind.
  - intros a b. reflexivity.
  - intros a b. rewrite !N.iter_succ, IH. apply next_state_additive.
Qed.

Lemma next_iter_add (n m : N) (s : state) :
  next_iter (n + m) s = next_iter n (next_iter m s).
Proof. apply N.iter_add. Qed.

(** ** A linear map is its matrix *)

Lemma lxor_bit0_div2 (x : Z) :
  x = Z.lxor (Z.b2z (Z.odd x)) (Z.shiftl (Z.div2 x) 1).
Proof.
  apply Z.bits_inj'; intros n Hn. rewrite Z.lxor_spec.
  destruct (Z.eq_dec n 0) as [->|Hne].
  - rewrite Z.b2z_bit0, Z.shiftl_spec by lia.
    rewrite (Z.testbit_neg_r _ (0 - 1)) by lia. rewrite Z.bit0_odd. now rewrite xorb_false_r.
  - rewrite Z.shiftl_spec, Z.div2_spec, Z.shiftr_spec by lia.
    replace (n - 1 + 1) with n by lia.
    replace (Z.testbit (Z.b2z (Z.odd x)) n) with false; [reflexivity|].
    symmetry. destruct (Z.odd x); cbn [Z.b2z].
    + apply Z.bits_above_log2; cbn; lia.
    + apply Z.bits_0.
Qed.

Section Columns.
Variable g : Z -> state.
Hypothesis g_xor : forall x y, g (Z.lxor x y) = state_xor (g x) (g y).

Lemma g_zero : g 0 = zero_state.
Proof.
  rewrite <- (Z.lxor_nilpotent 0) at 1. rewrite g_xor.
  apply state_xor_nilpotent.
Qed.

Lemma xor_sel_columns (n : nat) : forall (k : nat) (x : Z) (acc : state),
  0 <= x < 2 ^ Z.of_nat n ->
  xor_sel (map (fun j => g (Z.shiftl 1 (Z.of_nat j))) (seq k n)) x acc =
  state_xor acc (g (Z.shiftl x (Z.of_nat k))).
Proof.
  induction n as [|n IH]; intros k x acc Hx.
  - cbn in *. assert (x = 0) as -> by lia.
    now rewrite Z.shiftl_0_l, g_zero, state_xor_zero_r.
  - cbn [seq map xor_sel].
    assert (Hd : 0 <= Z.div2 x < 2 ^ Z.of_nat n).
    { rewrite Z.div2_div. rewrite Nat2Z.inj_succ, Z.pow_succ_r in Hx by lia.
      split; [apply Z.div_pos; lia|apply Z.div_lt_upper_bound; lia]. }
    rewrite IH by assumption.
    rewrite (lxor_bit0_div2 x) at 3.
    rewrite Z.shiftl_lxor, g_xor, Z.shiftl_shiftl by lia.
    replace (1 + Z.of_nat k) with (Z.of_nat (S k)) by lia.
    destruct (Z.odd x); cbn [Z.b2z].
    + now rewrite state_xor_assoc.
    + now rewrite Z.shiftl_0_l, g_zero, state_xor_zero_l.
Qed.
End Columns.

Lemma mat_apply_matrix_of (f : state -> state) (s : state) :
  additive f -> state_ok s -> mat_apply (matrix_of f) s = f s.
Proof.
  intros Hf [H0 H1]. unfold mat_apply, matrix_of; cbn [m_lo m_hi].
  rewrite (xor_sel_columns (fun x => f (State x 0))) with (n := 64%nat) (k := 0%nat);
    [|intros x y; rewrite <- Hf; unfold state_xor; cbn; now rewrite Z.lxor_0_l|exact H0].
  rewrite (xor_sel_columns (fun x => f (State 0 x))) with (n := 64%nat) (k := 0%nat);
    [|intros x y; rewrite <- Hf; unfold state_xor; cbn; now rewrite Z.lxor_0_l|exact H1].
  rewrite state_xor_zero_l, <- Hf, !Z.shiftl_0_r.
  destruct s as [a b]. unfold state_xor; cbn.
  now rewrite Z.lxor_0_r, Z.lxor_0_l.
Qed.

Lemma unit_lo_ok (j : nat) : (j < 64)%nat -> state_ok (unit_lo j).
Proof.
  intros Hj. split; cbn; unfold is_u64, u64_mod; [|lia].
  rewrite Z.shiftl_1_l. split; [apply Z.pow_nonneg; lia|].
  apply Z.pow_lt_mono_r; lia.
Qed.

Lemma unit_hi_ok (j : nat) : (j < 64)%nat -> state_ok (unit_hi j).
Proof.
  intros Hj. split; cbn; unfold is_u64, u64_mod; [lia|].
  rewrite Z.shiftl_1_l. split; [apply Z.pow_nonneg; lia|].
  apply Z.pow_lt_mono_r; lia.
Qed.

Lemma matrix_of_ext (f g : state -> state) :
  (forall s, state_ok s -> f s = g s) -> matrix_of f = matrix_of g.
Proof.
  intros H. unfold matrix_of. f_equal; apply map_ext_in; intros j Hj;
    apply in_seq in Hj; apply H; [apply unit_lo_ok|apply unit_hi_ok]; lia.
Qed.

Lemma matrix_of_lo (f : state -> state) :
  m_lo (matrix_of f) = map (fun j => f (unit_lo j)) (seq 0 64).
Proof. reflexivity. Qed.

Lemma matrix_of_hi (f : state -> state) :
  m_hi (matrix_of f) = map (fun j => f (unit_hi j)) (seq 0 64).
Proof. reflexivity. Qed.

Lemma mat_square_matrix_of (f : state -> state) :
  additive f -> (forall s, state_ok s -> state_ok (f s)) ->
  mat_square (matrix_of f) = matrix_of (fun s => f (f s)).
Proof.
  intros Hf Hok. unfold mat_square. rewrite matrix_of_lo, matrix_of_hi, !map_map.
  apply (f_equal2 Matrix); apply map_ext_in; intros j Hj; apply in_seq in Hj;
    apply mat_apply_matrix_of; try assumption; apply Hok;
    [apply unit_lo_ok|apply unit_hi_ok]; lia.
Qed.

Lemma mat_square_iter (k : nat) :
  Nat.iter k mat_square (matrix_of next_state) =
  matrix_of (next_iter (2 ^ N.of_nat k)).
Proof.
  induction k as [|k IH].
  - reflexivity.
  - rewrite Nat.iter_succ, IH.
    rewrite mat_square_matrix_of;
      [|apply next_iter_additive|intros s; apply next_iter_ok].
    apply matrix_of_ext; intros s _. rewrite <- next_iter_add. f_equal.
    rewrite Nat2N.inj_succ, N.pow_succ_r'. lia.
Qed.

(** ** JumpAhead *)

Lemma jump_body_xor (w : Z) (p q : state * state) (b : nat) :
  jump_body w (pair_xor p q) b = pair_xor (jump_body w p b) (jump_body w q b).
Proof.
  destruct p as [pa ps], q as [qa qs]. unfold jump_body, pair_xor; cbn [fst snd].
  rewrite next_state_additive.
  destruct (Z.land w (Z.shiftl 1 (Z.of_nat b)) =? 0); cbn [fst snd].
  - reflexivity.
  - now rewrite state_xor_swap.
Qed.

Lemma fold_left_pair_xor {A : Type} (step : state * state -> A -> state * state) :
  (forall p q x, step (pair_xor p q) x = pair_xor (step p x) (step q x)) ->
  forall l p q,
    fold_left step l (pair_xor p q) =
    pair_xor (fold_left step l p) (fold_left step l q).
Proof.
  intros H l. induction l as [|x l IH]; intros p q; cbn [fold_left].
  - reflexivity.
  - now rewrite H, IH.
Qed.

Lemma jump_word_xor (p q : state * state) (w : Z) :
  jump_word (pair_xor p q) w = pair_xor (jump_word p w) (jump_word q w).
Proof. unfold jump_word. apply fold_left_pair_xor. intros. apply jump_body_xor. Qed.

Lemma spl_rand_jump_additive : additive spl_rand_jump.
Proof.
  intros a b. unfold spl_rand_jump.
  replace (zero_state, state_xor a b) with (pair_xor (zero_state, a) (zero_state, b))
    by (unfold pair_xor; cbn [fst snd]; now rewrite state_xor_zero_l).
  rewrite (fold_left_pair_xor jump_word jump_word_xor). reflexivity.
Qed.

(** The images of the 128 unit vectors under the jump are those under
    [2^64] transitions, the latter obtained by squaring the matrix of the
    transition 64 times. *)
Lemma jump_matrix :
  matrix_of spl_rand_jump = Nat.iter 64 mat_square (matrix_of next_state).
Proof. vm_compute. reflexivity. Qed.

Lemma spl_rand_jump_eq (s : state) :
  state_ok s -> spl_rand_jump s = next_iter (2 ^ 64) s.
Proof.
  intros Hs.
  rewrite <- (mat_apply_matrix_of spl_rand_jump s spl_rand_jump_additive Hs).
  rewrite jump_matrix, (mat_square_iter 64).
  apply mat_apply_matrix_of; [apply next_iter_additive|assumption].
Qed.

Lemma spl_rand_jump_ok (s : state) : state_ok s -> state_ok (spl_rand_jump s).
Proof. intros Hs. rewrite spl_rand_jump_eq by assumption. now apply next_iter_ok. Qed.

(** C9. [spl_rand_jump] leaves the state that [2^64] calls of
    [spl_rand_next] leave, and two jumps the state that [2^65] calls
    leave. *)
Theorem spl_rand_jump_spec (s : state) (Hs : state_ok s) :
  spl_rand_jump s = next_iter (2 ^ 64) s /\
  spl_rand_jump (spl_rand_jump s) = next_iter (2 ^ 65) s.
Proof.
  split.
  - now apply spl_rand_jump_eq.
  - rewrite (spl_rand_jump_eq (spl_rand_jump s)) by now apply spl_rand_jump_ok.
    rewrite (spl_rand_jump_eq s) by assumption.
    rewrite <- next_iter_add. reflexivity.
Qed.

Lemma spl_rand_jump_spec_witness :
  spl_rand_jump (State 1 2) = next_iter (2 ^ 64) (State 1 2) /\
  spl_rand_jump (spl_rand_jump (State 1 2)) = next_iter (2 ^ 65) (State 1 2).
Proof.
  apply (spl_rand_jump_spec (State 1 2)).
  split; cbn; unfold is_u64, u64_mod; lia.
Defined.

(** ** Seeding *)

Lemma state_eta (s : state) : State (s0 s) (s1 s) = s.
Proof. now destruct s. Qed.

Lemma iter_one {A : Type} (f : A -> A) (x : A) : Nat.iter 1 f x = f x.
Proof. reflexivity. Qed.

Lemma seed_cpu_eq (s : state) (reg : percpu) (i : nat) :
  seed_cpu (s, reg) i = (spl_rand_jump s, <[i := spl_rand_jump s]> reg).
Proof. unfold seed_cpu. now rewrite state_eta. Qed.

(** The [for_each_possible_cpu] loop from CPU [k] on, over [n] CPUs. *)
Lemma seed_loop (n : nat) : forall (k : nat) (s : state) (reg : percpu),
  (k + n <= length reg)%nat ->
  exists reg',
    fold_left seed_cpu (seq k n) (s, reg) = (Nat.iter n spl_rand_jump s, reg') /\
    length reg' = length reg /\
    (forall i, (i < k)%nat -> reg' !! i = reg !! i) /\
    (forall i, (i < n)%nat ->
       reg' !! (k + i)%nat = Some (Nat.iter (S i) spl_rand_jump s)).
Proof.
  induction n as [|n IH]; intros k s reg Hlen.
  - exists reg. split; [reflexivity|]. split; [reflexivity|].
    split; [reflexivity|]. intros i Hi. lia.
  - cbn [seq fold_left]. rewrite seed_cpu_eq.
    destruct (IH (S k) (spl_rand_jump s) (<[k := spl_rand_jump s]> reg))
      as (reg' & Hfold & Hl & Hlow & Hnew).
    { rewrite length_insert. lia. }
    exists reg'. rewrite Hfold, Hl, length_insert.
    split; [now rewrite Nat.iter_succ_r|]. split; [reflexivity|]. split.
    + intros i Hi. rewrite Hlow by lia. apply list_lookup_insert_ne. lia.
    + intros [|i] Hi.
      * rewrite Nat.add_0_r, Hlow, iter_one by lia.
        apply list_lookup_insert_eq. lia.
      * replace (k + S i)%nat with (S k + i)%nat by lia.
        rewrite Hnew by lia. now rewrite <- Nat.iter_succ_r.
Qed.

(** C6. When the per-CPU area is allocated, [spl_random_init] returns 0
    and leaves, for each of the [N] possible CPUs, in slot [i] the RootSeed
    jumped [i + 1] times: one running state is jumped once per CPU, in CPU
    order. *)
Theorem spl_random_init_seeds (bo : byte_order) (B : boot)
    (Halloc : alloc_percpu_ok B = true) :
  exists reg : percpu,
    spl_random_init bo B = (0, Some reg) /\
    length reg = possible_cpus B /\
    forall i : nat, (i < possible_cpus B)%nat ->
      reg !! i = Some (Nat.iter (S i) spl_rand_jump (root_seed bo B)).
Proof.
  unfold spl_random_init. rewrite Halloc; cbn [negb].
  destruct (seed_loop (possible_cpus B) 0 (root_seed bo B)
              (replicate (possible_cpus B) zero_state))
    as (reg & Hfold & Hl & _ & Hnew).
  { rewrite length_replicate. lia. }
  exists reg. rewrite Hfold. split; [reflexivity|]. split.
  - now rewrite Hl, length_replicate.
  - intros i Hi. apply (Hnew i Hi).
Qed.

Lemma spl_random_init_seeds_witness :
  exists reg : percpu,
    spl_random_init LittleEndian (Boot true 2 (State 1 2) (fun _ => 5%Z)) = (0, Some reg) /\
    length reg = possible_cpus (Boot true 2 (State 1 2) (fun _ => 5%Z)) /\
    forall i : nat, (i < possible_cpus (Boot true 2 (State 1 2) (fun _ => 5%Z)))%nat ->
      reg !! i =
      Some (Nat.iter (S i) spl_rand_jump
              (root_seed LittleEndian (Boot true 2 (State 1 2) (fun _ => 5%Z)))).
Proof.
  apply (spl_random_init_seeds LittleEndian (Boot true 2 (State 1 2) (fun _ => 5%Z))).
  reflexivity.
Defined.

(** ** The RootSeed and its fallbacks *)

Lemma u64_testbit_high (j n : Z) :
  is_u64 j -> 64 <= n -> Z.testbit j n = false.
Proof.
  intros Hj Hn. rewrite <- (wrap64_small j Hj). unfold wrap64, u64_mod.
  apply Z.mod_pow2_bits_high. lia.
Qed.

(** [~0 - j] on [unsigned long] flips the 64 bits of [j]. *)
Lemma complement_u64 (j : Z) :
  is_u64 j -> wrap64 (wrap64 (Z.lnot 0) - j) = Z.lxor j (Z.ones 64).
Proof.
  intros Hj.
  assert (E : Z.lxor j (Z.ones 64) = Z.ones 64 - j).
  { rewrite Z.sub_nocarry_ldiff.
    - apply Z.bits_inj'; intros n Hn. rewrite Z.lxor_spec, Z.ldiff_spec.
      destruct (Z.ltb_spec n 64).
      + rewrite Z.ones_spec_low by lia. now destruct (Z.testbit j n).
      + rewrite Z.ones_spec_high, u64_testbit_high by (assumption || lia).
        reflexivity.
    - apply Z.bits_inj'; intros n Hn. rewrite Z.ldiff_spec, Z.bits_0.
      destruct (Z.ltb_spec n 64).
      + rewrite Z.ones_spec_low by lia. apply andb_false_r.
      + now rewrite u64_testbit_high by (assumption || lia). }
  rewrite E. change (wrap64 (Z.lnot 0)) with (Z.ones 64).
  apply wrap64_small. unfold is_u64, u64_mod in *.
  change (Z.ones 64) with (2 ^ 64 - 1). lia.
Qed.

Lemma improbable_seed_nonzero (bo : byte_order) : improbable_seed bo <> zero_state.
Proof. destruct bo; discriminate. Qed.

(** The words the string literal leaves in [s] on either host. *)
Lemma improbable_seed_words :
  improbable_seed LittleEndian = State 0x6261626f72706d69 0x006465657320656c /\
  improbable_seed BigEndian = State 0x696d70726f626162 0x6c65207365656400.
Proof. split; reflexivity. Qed.

(** C7, with the three reads of [jiffies] kept apart.  When
    [get_random_bytes] gives 16 zero bytes and the read of [jiffies] that
    is tested is not zero, the RootSeed is [jiffies] as read for [s[0]]
    paired with the 64-bit complement of [jiffies] as read for [s[1]]: one
    value and its complement when the counter did not move between the
    reads, and not all-zero unless the two reads gave 0 and [2^64 - 1].
    When the tested read is zero, the RootSeed is made of the words of the
    string literal and is not all-zero. *)
Theorem root_seed_fallback (bo : byte_order) (B : boot)
    (Hzero : random_bytes B = zero_state)
    (Hj : forall k, is_u64 (jiffies B k)) :
  (jiffies B 0 <> 0 ->
     root_seed bo B = State (jiffies B 1) (Z.lxor (jiffies B 2) (Z.ones 64)) /\
     (jiffies B 1 = jiffies B 0 -> jiffies B 2 = jiffies B 0 ->
        root_seed bo B = State (jiffies B 0) (Z.lxor (jiffies B 0) (Z.ones 64))) /\
     (jiffies B 1 <> 0 \/ jiffies B 2 <> 2 ^ 64 - 1 ->
        root_seed bo B <> zero_state)) /\
  (jiffies B 0 = 0 ->
     root_seed bo B = improbable_seed bo /\ root_seed bo B <> zero_state).
Proof.
  unfold root_seed. rewrite Hzero; cbn [zero_state s0 s1 Z.eqb andb].
  rewrite complement_u64 by apply Hj.
  destruct (Z.eqb_spec (jiffies B 0) 0) as [E|E]; cbn [negb].
  - split; [tauto|]. intros _. split; [reflexivity|].
    apply improbable_seed_nonzero.
  - split; [|tauto]. intros _. split; [reflexivity|]. split.
    + intros E1 E2. now rewrite E1, E2.
    + intros Hne H. injection H as H0 H1.
      destruct Hne as [Hne|Hne]; [contradiction|]. apply Hne.
      apply Z.lxor_eq in H1. rewrite H1. reflexivity.
Qed.

Lemma root_seed_fallback_witness :
  (jiffies (Boot true 1 zero_state (fun _ => 5%Z)) 0 <> 0 ->
     root_seed LittleEndian (Boot true 1 zero_state (fun _ => 5%Z)) =
       State (jiffies (Boot true 1 zero_state (fun _ => 5%Z)) 1)
             (Z.lxor (jiffies (Boot true 1 zero_state (fun _ => 5%Z)) 2)
                     (Z.ones 64)) /\
     (jiffies (Boot true 1 zero_state (fun _ => 5%Z)) 1 =
      jiffies (Boot true 1 zero_state (fun _ => 5%Z)) 0 ->
      jiffies (Boot true 1 zero_state (fun _ => 5%Z)) 2 =
      jiffies (Boot true 1 zero_state (fun _ => 5%Z)) 0 ->
        root_seed LittleEndian (Boot true 1 zero_state (fun _ => 5%Z)) =
          State (jiffies (Boot true 1 zero_state (fun _ => 5%Z)) 0)
                (Z.lxor (jiffies (Boot true 1 zero_state (fun _ => 5%Z)) 0)
                        (Z.ones 64))) /\
     (jiffies (Boot true 1 zero_state (fun _ => 5%Z)) 1 <> 0 \/
      jiffies (Boot true 1 zero_state (fun _ => 5%Z)) 2 <> 2 ^ 64 - 1 ->
        root_seed LittleEndian (Boot true 1 zero_state (fun _ => 5%Z))
          <> zero_state)) /\
  (jiffies (Boot true 1 zero_state (fun _ => 5%Z)) 0 = 0 ->
     root_seed LittleEndian (Boot true 1 zero_state (fun _ => 5%Z)) =
       improbable_seed LittleEndian /\
     root_seed LittleEndian (Boot true 1 zero_state (fun _ => 5%Z)) <> zero_state).
Proof.
  apply (root_seed_fallback LittleEndian (Boot true 1 zero_state (fun _ => 5%Z))).
  - reflexivity.
  - intros k. cbn [jiffies]. unfold is_u64, u64_mod. lia.
Defined.

(** The timer advances [jiffies] from 5 to 6 between the assignment to
    [s[0]] and the one to [s[1]]: the second word of the RootSeed is the
    complement of 6, not of the first word 5, so the RootSeed is not a
    clock reading paired with its complement. *)
Lemma root_seed_clock_ticks :
  s1 (root_seed LittleEndian
        (Boot true 1 zero_state (fun k => match k with 2%nat => 6%Z | _ => 5%Z end)))
  <> Z.lxor (s0 (root_seed LittleEndian
                   (Boot true 1 zero_state
                         (fun k => match k with 2%nat => 6%Z | _ => 5%Z end))))
            (Z.ones 64).
Proof. vm_compute. discriminate. Qed.

(** Otherwise the RootSeed is what [get_random_bytes] gave. *)
Lemma root_seed_entropy (bo : byte_order) (B : boot) :
  random_bytes B <> zero_state -> root_seed bo B = random_bytes B.
Proof.
  intros H. unfold root_seed.
  destruct (Z.eqb_spec (s0 (random_bytes B)) 0) as [E0|E0]; [|reflexivity].
  destruct (Z.eqb_spec (s1 (random_bytes B)) 0) as [E1|E1]; [|reflexivity].
  exfalso. apply H. destruct (random_bytes B); cbn in *. now subst.
Qed.

(** ** Memory *)

Lemma store_bytes_outside (l : list Z) : forall (m : mem) (a x : Z),
  x < a \/ a + Z.of_nat (length l) <= x -> store_bytes m a l x = m x.
Proof.
  induction l as [|b l IH]; intros m a x Hx; cbn [store_bytes].
  - reflexivity.
  - cbn [length] in Hx. rewrite IH by lia. unfold store.
    destruct (Z.eqb_spec x a); [lia|reflexivity].
Qed.

Lemma store_bytes_inside (l : list Z) : forall (m : mem) (a : Z) (j : nat),
  (j < length l)%nat -> store_bytes m a l (a + Z.of_nat j) = nth j l 0.
Proof.
  induction l as [|b l IH]; intros m a j Hj; cbn [store_bytes length] in *.
  - lia.
  - destruct j as [|j].
    + rewrite store_bytes_outside by lia. unfold store.
      now rewrite Z.add_0_r, Z.eqb_refl.
    + replace (a + Z.of_nat (S j)) with (a + 1 + Z.of_nat j) by lia.
      rewrite IH by lia. reflexivity.
Qed.

Lemma store_bytes_app (l1 l2 : list Z) : forall (m : mem) (a : Z),
  store_bytes m a (l1 ++ l2) =
  store_bytes (store_bytes m a l1) (a + Z.of_nat (length l1)) l2.
Proof.
  induction l1 as [|b l1 IH]; intros m a; cbn [store_bytes app length].
  - now rewrite Z.add_0_r.
  - rewrite IH. f_equal. lia.
Qed.

(** ** ByteFillService *)

Lemma firstn_snoc (l : list Z) : forall i : nat,
  (i < length l)%nat -> firstn (S i) l = firstn i l ++ [nth i l 0].
Proof.
  induction l as [|b l IH]; intros i Hi; cbn [length] in Hi; [lia|].
  destruct i as [|i]; [reflexivity|].
  cbn [firstn nth app]. f_equal. apply IH. lia.
Qed.

Lemma emit_bytes_eq (bytes : list Z) (i : nat) : forall (m : mem) (ptr : Z),
  (i <= length bytes)%nat ->
  emit_bytes bytes i m ptr =
  (store_bytes m ptr (rev (firstn i bytes)), ptr + Z.of_nat i).
Proof.
  induction i as [|i IH]; intros m ptr Hi.
  - cbn. now rewrite Z.add_0_r.
  - cbn [emit_bytes]. rewrite IH by lia. f_equal; [|lia].
    rewrite firstn_snoc, rev_app_distr by lia. reflexivity.
Qed.

Lemma fill_loop_done (bo : byte_order) (s : state) (m : mem) (ptr len : Z) :
  len <= 0 -> fill_loop bo s m ptr len = (s, m, ptr).
Proof.
  intros H. simp fill_loop. destruct (Z_lt_dec 0 len); [lia|reflexivity].
Qed.

Lemma fill_loop_step (bo : byte_order) (s : state) (m : mem) (ptr len : Z) :
  0 < len ->
  fill_loop bo s m ptr len =
  let i := MIN len 8 in
  let '(m', ptr') :=
    emit_bytes (union_bytes bo (snd (spl_rand_next s))) (Z.to_nat i) m ptr in
  fill_loop bo (next_state s) m' ptr' (len - i).
Proof.
  intros H. simp fill_loop. destruct (Z_lt_dec 0 len); [|lia].
  cbn. unfold next_state. destruct (spl_rand_next s) as [s' w]; cbn [fst snd].
  destruct (emit_bytes _ _ _ _); reflexivity.
Qed.

Lemma union_bytes_length (bo : byte_order) (w : Z) :
  length (union_bytes bo w) = 8%nat.
Proof. now destruct bo. Qed.

Lemma emission_length (bo : byte_order) (w : Z) : length (emission bo w) = 8%nat.
Proof. now destruct bo. Qed.

(** Walking the union from index [k - 1] down to 0 gives the last [k]
    bytes of the emission order. *)
Lemma rev_union_bytes (bo : byte_order) (w : Z) (k : nat) :
  (k <= 8)%nat ->
  rev (firstn k (union_bytes bo w)) = skipn (8 - k) (emission bo w).
Proof.
  intros Hk. do 9 (destruct k as [|k]; [now destruct bo|]). lia.
Qed.

Lemma MIN_eq (a b : Z) : MIN a b = Z.min a b.
Proof. unfold MIN. destruct (Z.ltb_spec a b); lia. Qed.

Lemma fill_spec_length (emit : Z -> list Z) (q k : nat) :
  (forall w, length (emit w) = 8%nat) -> (k < 8)%nat ->
  forall s, length (fill_spec emit q k s) = (8 * q + k)%nat.
Proof.
  intros He Hk. induction q as [|q IH]; intros s; cbn [fill_spec].
  - destruct (Nat.eqb_spec k 0); [cbn; lia|].
    rewrite length_skipn, He. lia.
  - rewrite length_app, He, IH. lia.
Qed.

(** The loop of [random_get_pseudo_bytes], for a request of [q] whole words
    and [k] more bytes. *)
Lemma fill_loop_spec (bo : byte_order) (k : nat) (Hk : (k < 8)%nat) (q : nat) :
  forall (s : state) (m : mem) (ptr : Z),
    fill_loop bo s m ptr (8 * Z.of_nat q + Z.of_nat k) =
    (Nat.iter (q + (if Nat.eqb k 0 then 0 else 1)) next_state s,
     store_bytes m ptr (fill_spec (emission bo) q k s),
     ptr + (8 * Z.of_nat q + Z.of_nat k)).
Proof.
  induction q as [|q IH]; intros s m ptr.
  - cbn [fill_spec Nat.add]. destruct (Nat.eqb_spec k 0) as [->|Hne].
    + rewrite fill_loop_done by lia. cbn. now rewrite Z.add_0_r.
    + rewrite fill_loop_step by lia. cbv zeta. rewrite MIN_eq.
      replace (Z.min (8 * Z.of_nat 0 + Z.of_nat k) 8) with (Z.of_nat k) by lia.
      rewrite Nat2Z.id, emit_bytes_eq by (rewrite union_bytes_length; lia).
      rewrite rev_union_bytes by lia.
      rewrite fill_loop_done by lia. rewrite iter_one. f_equal; lia.
  - rewrite fill_loop_step by lia. cbv zeta. rewrite MIN_eq.
    replace (Z.min (8 * Z.of_nat (S q) + Z.of_nat k) 8) with (Z.of_nat 8) by lia.
    rewrite Nat2Z.id, emit_bytes_eq by (rewrite union_bytes_length; lia).
    rewrite (rev_union_bytes bo _ 8) by lia.
    replace (8 * Z.of_nat (S q) + Z.of_nat k - Z.of_nat 8)
      with (8 * Z.of_nat q + Z.of_nat k) by lia.
    rewrite IH. cbn [fill_spec Nat.add skipn Nat.sub].
    rewrite store_bytes_app, emission_length, <- Nat.iter_succ_r.
    f_equal; lia.
Qed.

Lemma split_len (len : Z) : 0 <= len ->
  len = 8 * Z.of_nat (Z.to_nat (len / 8)) + Z.of_nat (Z.to_nat (len mod 8))
  /\ (Z.to_nat (len mod 8) < 8)%nat.
Proof.
  intros H. pose proof (Z.div_mod len 8 ltac:(lia)) as E.
  pose proof (Z.mod_pos_bound len 8 ltac:(lia)) as B.
  assert (0 <= len / 8) by (apply Z.div_pos; lia).
  rewrite !Z2Nat.id by lia. lia.
Qed.

Lemma emission_nth (bo : byte_order) (w : Z) (i : nat) :
  (i < 8)%nat ->
  nth i (emission bo w) 0 =
  byte_of w (match bo with
             | LittleEndian => 7 - Z.of_nat i
             | BigEndian => Z.of_nat i
             end).
Proof.
  intros Hi. do 8 (destruct i as [|i]; [now destruct bo|]). lia.
Qed.

Lemma stream_word_next (s : state) (q : nat) :
  stream_word (next_state s) q = stream_word s (S q).
Proof. unfold stream_word. now rewrite Nat.iter_succ_r. Qed.

Lemma fill_spec_nth (bo : byte_order) (k : nat) (Hk : (k < 8)%nat) (q : nat) :
  forall (s : state) (j : nat),
    (j < 8 * q + k)%nat ->
    nth j (fill_spec (emission bo) q k s) 0 =
    emitted_byte bo (stream_word s (j / 8))
                 (if (j / 8 <? q)%nat then 8 else Z.of_nat k)
                 (Z.of_nat (j mod 8)).
Proof.
  induction q as [|q IH]; intros s j Hj.
  - cbn [fill_spec]. destruct (Nat.eqb_spec k 0); [lia|].
    rewrite Nat.div_small, Nat.mod_small by lia.
    replace (0 <? 0)%nat with false by reflexivity.
    rewrite nth_skipn, emission_nth by lia.
    unfold emitted_byte, stream_word; cbn [Nat.iter nat_rect].
    f_equal; destruct bo; lia.
  - cbn [fill_spec]. destruct (Nat.lt_ge_cases j 8) as [Hlt|Hge].
    + rewrite app_nth1 by (rewrite emission_length; lia).
      rewrite Nat.div_small, Nat.mod_small by lia.
      replace (0 <? S q)%nat with true by reflexivity.
      rewrite emission_nth by lia. unfold emitted_byte, stream_word.
      cbn [Nat.iter nat_rect]. f_equal; destruct bo; lia.
    + rewrite app_nth2, emission_length by (rewrite emission_length; lia).
      destruct (Nat.le_exists_sub 8 j Hge) as (i & -> & _).
      rewrite Nat.add_sub. rewrite IH by lia. rewrite stream_word_next.
      replace (i + 8)%nat with (i + 1 * 8)%nat by lia.
      rewrite Nat.div_add, Nat.Div0.mod_add by lia.
      replace (S (i / 8)) with (i / 8 + 1)%nat by lia.
      destruct (Nat.ltb_spec (i / 8) q), (Nat.ltb_spec (i / 8 + 1) (S q));
        try lia; reflexivity.
Qed.

Lemma words_for_split (q k : nat) :
  (k < 8)%nat ->
  words_for (8 * Z.of_nat q + Z.of_nat k) =
  (q + (if Nat.eqb k 0 then 0 else 1))%nat.
Proof.
  intros Hk. unfold words_for.
  destruct (Nat.eqb_spec k 0) as [->|Hne].
  - replace (8 * Z.of_nat q + Z.of_nat 0 + 7) with (7 + Z.of_nat q * 8) by lia.
    rewrite Z.div_add, Z.div_small by lia. lia.
  - replace (8 * Z.of_nat q + Z.of_nat k + 7)
      with (Z.of_nat k - 1 + (Z.of_nat q + 1) * 8) by lia.
    rewrite Z.div_add, Z.div_small by lia. lia.
Qed.

(** [random_get_pseudo_bytes] in closed form: the state of the calling CPU
    advances by one transition per output word used, and the bytes of
    [fill_spec] go to [ptr], [ptr + 1], ... *)
Lemma random_get_pseudo_bytes_eq (bo : byte_order) (reg : percpu) (cpu : nat)
    (m : mem) (ptr len : Z) :
  0 <= len ->
  random_get_pseudo_bytes bo reg cpu m ptr len =
  (0,
   <[cpu := Nat.iter (words_for len) next_state (get_cpu_ptr reg cpu)]> reg,
   store_bytes m ptr
     (fill_spec (emission bo) (Z.to_nat (len / 8)) (Z.to_nat (len mod 8))
                (get_cpu_ptr reg cpu))).
Proof.
  intros Hlen. destruct (split_len len Hlen) as [E Hk].
  pose proof (fill_loop_spec bo _ Hk (Z.to_nat (len / 8))
                (get_cpu_ptr reg cpu) m ptr) as F.
  pose proof (words_for_split (Z.to_nat (len / 8)) _ Hk) as W.
  rewrite <- E in F, W.
  unfold random_get_pseudo_bytes. rewrite state_eta, F, state_eta, W.
  reflexivity.
Qed.

(** Byte [j] of a request of [len] bytes, as [random_get_pseudo_bytes]
    leaves it in memory. *)
Lemma fill_byte (bo : byte_order) (reg : percpu) (cpu : nat) (m : mem)
    (ptr len j : Z) :
  0 <= j < len ->
  snd (random_get_pseudo_bytes bo reg cpu m ptr len) (ptr + j) =
  emitted_byte bo (stream_word (get_cpu_ptr reg cpu) (Z.to_nat (j / 8)))
               (Z.min 8 (len - 8 * (j / 8))) (j mod 8).
Proof.
  intros Hj. assert (Hlen : 0 <= len) by lia.
  rewrite random_get_pseudo_bytes_eq by assumption. cbn [snd].
  destruct (split_len len Hlen) as [E Hk].
  set (q := Z.to_nat (len / 8)) in *. set (k := Z.to_nat (len mod 8)) in *.
  assert (Hl : length (fill_spec (emission bo) q k (get_cpu_ptr reg cpu))
               = (8 * q + k)%nat)
    by (apply fill_spec_length; [apply emission_length|assumption]).
  rewrite <- (Z2Nat.id j) at 1 by lia.
  rewrite store_bytes_inside, fill_spec_nth by lia.
  assert (Ej : Z.of_nat (Z.to_nat j / 8) = j / 8)
    by (rewrite Nat2Z.inj_div, Z2Nat.id by lia; reflexivity).
  rewrite Nat2Z.inj_mod, Z2Nat.id by lia.
  replace (Z.to_nat j / 8)%nat with (Z.to_nat (j / 8)) by lia.
  f_equal.
  pose proof (Z.div_mod j 8 ltac:(lia)) as Dj.
  pose proof (Z.mod_pos_bound j 8 ltac:(lia)) as Bj.
  destruct (Nat.ltb_spec (Z.to_nat (j / 8)) q); lia.
Qed.

(** C3, with the byte order of the host made explicit.
    [random_get_pseudo_bytes] sets the [len] bytes from [ptr] on and no
    other byte.  Byte [j] comes from output word [j / 8] of the stream of
    the calling CPU; a group of [c] bytes (8, or the rest of [len] for the
    last word) is taken from the word as [emitted_byte] says: on a
    little-endian host most significant byte first, the last group being
    the least significant bytes of its word. *)
Theorem random_get_pseudo_bytes_writes (bo : byte_order) (reg : percpu)
    (cpu : nat) (m : mem) (ptr len : Z) (Hlen : is_u64 len) :
  (forall j : Z, 0 <= j < len ->
     snd (random_get_pseudo_bytes bo reg cpu m ptr len) (ptr + j) =
     emitted_byte bo (stream_word (get_cpu_ptr reg cpu) (Z.to_nat (j / 8)))
                  (Z.min 8 (len - 8 * (j / 8))) (j mod 8)) /\
  (forall a : Z, a < ptr \/ ptr + len <= a ->
     snd (random_get_pseudo_bytes bo reg cpu m ptr len) a = m a).
Proof.
  destruct Hlen as [Hlen _].
  rewrite random_get_pseudo_bytes_eq by assumption. cbn [snd].
  destruct (split_len len Hlen) as [E Hk].
  set (q := Z.to_nat (len / 8)) in *. set (k := Z.to_nat (len mod 8)) in *.
  assert (Hl : length (fill_spec (emission bo) q k (get_cpu_ptr reg cpu))
               = (8 * q + k)%nat)
    by (apply fill_spec_length; [apply emission_length|assumption]).
  split.
  - intros j Hj.
    rewrite <- (Z2Nat.id j) at 1 by lia.
    rewrite store_bytes_inside by lia.
    rewrite fill_spec_nth by lia.
    assert (Ej : Z.of_nat (Z.to_nat j / 8) = j / 8)
      by (rewrite Nat2Z.inj_div, Z2Nat.id by lia; reflexivity).
    assert (Er : Z.of_nat (Z.to_nat j mod 8) = j mod 8)
      by (rewrite Nat2Z.inj_mod, Z2Nat.id by lia; reflexivity).
    rewrite Er. replace (Z.to_nat j / 8)%nat with (Z.to_nat (j / 8)) by lia.
    f_equal.
    pose proof (Z.div_mod j 8 ltac:(lia)) as Dj.
    pose proof (Z.mod_pos_bound j 8 ltac:(lia)) as Bj.
    destruct (Nat.ltb_spec (Z.to_nat (j / 8)) q); lia.
  - intros a Ha. apply store_bytes_outside. lia.
Qed.

Lemma random_get_pseudo_bytes_writes_witness :
  (forall j : Z, 0 <= j < 11 ->
     snd (random_get_pseudo_bytes LittleEndian [State 1 2] 0 (fun _ => 0) 100 11)
         (100 + j) =
     emitted_byte LittleEndian
                  (stream_word (get_cpu_ptr [State 1 2] 0) (Z.to_nat (j / 8)))
                  (Z.min 8 (11 - 8 * (j / 8))) (j mod 8)) /\
  (forall a : Z, a < 100 \/ 100 + 11 <= a ->
     snd (random_get_pseudo_bytes LittleEndian [State 1 2] 0 (fun _ => 0) 100 11) a
     = (fun _ => 0) a).
Proof.
  apply (random_get_pseudo_bytes_writes LittleEndian [State 1 2] 0 (fun _ => 0) 100 11).
  unfold is_u64, u64_mod. lia.
Defined.

(** On a big-endian host the bytes of a word come out least significant
    first: the claim of C3 that the order does not depend on the host
    fails there. *)
Lemma random_get_pseudo_bytes_big_endian :
  map (snd (random_get_pseudo_bytes BigEndian [State 1 2] 0 (fun _ => 0) 0 8))
      [0; 1; 2; 3; 4; 5; 6; 7]
  <> be_bytes (stream_word (State 1 2) 0).
Proof. vm_compute. discriminate. Qed.

(** C10. [random_get_pseudo_bytes] returns 0 whatever it is called with,
    and a call with [len = 0] changes neither memory nor the per-CPU
    area. *)
Theorem random_get_pseudo_bytes_returns_zero (bo : byte_order) (reg : percpu)
    (cpu : nat) (m : mem) (ptr len : Z) :
  fst (fst (random_get_pseudo_bytes bo reg cpu m ptr len)) = 0 /\
  random_get_pseudo_bytes bo reg cpu m ptr 0 = (0, reg, m).
Proof.
  split.
  - unfold random_get_pseudo_bytes.
    destruct (fill_loop _ _ _ _ _) as [[s' m'] p']. reflexivity.
  - unfold random_get_pseudo_bytes.
    rewrite fill_loop_done by lia. rewrite !state_eta.
    unfold get_cpu_ptr. rewrite nth_lookup.
    destruct (reg !! cpu) as [x|] eqn:E; cbn [default].
    + now rewrite list_insert_id.
    + apply lookup_ge_None in E. now rewrite list_insert_ge.
Qed.

(** ** BulkTransferPath: sizes and counters *)

Lemma P2ROUNDUP_8 (len : Z) :
  0 < len <= 2 ^ 64 - 8 -> P2ROUNDUP len 8 = 8 * ((len + 7) / 8).
Proof.
  intros H. unfold P2ROUNDUP.
  rewrite (wrap64_small (len - 1)) by (unfold is_u64, u64_mod; lia).
  change (wrap64 (8 - 1)) with (Z.ones 3).
  pose proof (Z.add_lor_land (len - 1) (Z.ones 3)) as E.
  rewrite Z.land_ones in E by lia. change (Z.ones 3) with 7 in *.
  pose proof (Z.div_mod (len - 1) 8 ltac:(lia)) as D.
  pose proof (Z.mod_pos_bound (len - 1) 8 ltac:(lia)) as B.
  change (2 ^ 3) with 8 in E.
  replace (len + 7) with (len - 1 + 1 * 8) by lia.
  rewrite Z.div_add by lia.
  rewrite wrap64_small by (unfold is_u64, u64_mod; lia). lia.
Qed.

Lemma P2ROUNDUP_0 : P2ROUNDUP 0 8 = 0.
Proof. reflexivity. Qed.

(** The scratch sizes for the lengths of the boundary test. *)
Lemma P2ROUNDUP_boundary :
  map (fun len => P2ROUNDUP len 8) [0; 1; 4095; 4096; 4097] =
  [0; 8; 4096; 4096; 4104].
Proof. reflexivity. Qed.

Lemma wrap_int_small (x : Z) : 0 <= x < 2 ^ 31 -> wrap_int x = x.
Proof. intros H. unfold wrap_int. rewrite Z.mod_small; lia. Qed.

Lemma wrap_ssize_small (x : Z) : 0 <= x < 2 ^ 63 -> wrap_ssize x = x.
Proof. intros H. unfold wrap_ssize. rewrite Z.mod_small; lia. Qed.

(** The loop counter [i] after it passed [8 * n <= 2^31] bytes, as the
    comparison [i < len] sees it. *)
Lemma loop_counter_test (n len : Z) :
  0 <= n -> 8 * n <= 2 ^ 31 -> 0 <= len <= 2 ^ 31 ->
  (wrap64 (wrap_int (8 * n)) <? len) = (8 * n <? len).
Proof.
  intros Hn Hi Hlen. destruct (Z.eq_dec (8 * n) (2 ^ 31)) as [E|E].
  - rewrite E. change (wrap64 (wrap_int (2 ^ 31))) with (2 ^ 64 - 2 ^ 31).
    destruct (Z.ltb_spec (2 ^ 64 - 2 ^ 31) len), (Z.ltb_spec (2 ^ 31) len);
      try reflexivity; lia.
  - rewrite wrap_int_small by lia.
    rewrite wrap64_small by (unfold is_u64, u64_mod; lia). reflexivity.
Qed.

Lemma loop_counter_next (n : Z) :
  0 <= n -> 8 * n < 2 ^ 31 ->
  wrap_int (wrap64 (wrap64 (wrap_int (8 * n)) + 8)) = wrap_int (8 * (n + 1)).
Proof.
  intros Hn Hi. rewrite (wrap_int_small (8 * n)) by lia.
  rewrite (wrap64_small (8 * n)) by (unfold is_u64, u64_mod; lia).
  rewrite wrap64_small by (unfold is_u64, u64_mod; lia).
  f_equal. lia.
Qed.

(** ** BulkTransferPath: the generation loop *)

Lemma generate_loop_exit (fuel : nat) (bo : byte_order) (reg : percpu)
    (cpu : nat) (km : mem) (buf len i : Z) :
  (wrap64 i <? len) = false ->
  generate_loop fuel bo reg cpu km buf len i = Some (reg, km).
Proof. intros H. destruct fuel; cbn [generate_loop]; now rewrite H. Qed.

Lemma generate_loop_round (fuel : nat) (bo : byte_order) (reg : percpu)
    (cpu : nat) (km : mem) (buf len i : Z) :
  (wrap64 i <? len) = true ->
  generate_loop (S fuel) bo reg cpu km buf len i =
  generate_loop fuel bo (<[cpu := next_state (get_cpu_ptr reg cpu)]> reg) cpu
    (store_u64 bo km (buf + i) (snd (spl_rand_next (get_cpu_ptr reg cpu))))
    buf len (wrap_int (wrap64 (wrap64 i + 8))).
Proof.
  intros H. cbn [generate_loop]. rewrite H. unfold next_state.
  now destruct (spl_rand_next (get_cpu_ptr reg cpu)).
Qed.

Lemma words_for_bounds (len : Z) :
  0 <= len ->
  len <= 8 * Z.of_nat (words_for len) < len + 8.
Proof.
  intros H. unfold words_for.
  pose proof (Z.div_mod (len + 7) 8 ltac:(lia)) as D.
  pose proof (Z.mod_pos_bound (len + 7) 8 ltac:(lia)) as B.
  assert (0 <= (len + 7) / 8) by (apply Z.div_pos; lia).
  rewrite Z2Nat.id by assumption. lia.
Qed.

Lemma get_cpu_ptr_lookup (reg : percpu) (cpu : nat) :
  (cpu < length reg)%nat -> reg !! cpu = Some (get_cpu_ptr reg cpu).
Proof.
  intros H. unfold get_cpu_ptr. rewrite nth_lookup.
  destruct (lookup_lt_is_Some_2 reg cpu H) as [x ->]. reflexivity.
Qed.

Lemma get_cpu_ptr_insert (reg : percpu) (cpu : nat) (s : state) :
  (cpu < length reg)%nat -> get_cpu_ptr (<[cpu := s]> reg) cpu = s.
Proof.
  intros H. unfold get_cpu_ptr. rewrite nth_lookup.
  now rewrite list_lookup_insert_eq.
Qed.

Section Generate.
Variables (bo : byte_order) (cpu : nat) (buf len : Z).
Hypothesis Hlen : 0 <= len <= 2 ^ 31.

(** From round [n] on, with [d] rounds to go. *)
Lemma generate_loop_from (d : nat) :
  forall (n fuel : nat) (reg : percpu) (km : mem),
    (cpu < length reg)%nat ->
    (n + d)%nat = words_for len ->
    (d <= fuel)%nat ->
    generate_loop fuel bo reg cpu km buf len (wrap_int (8 * Z.of_nat n)) =
    Some (<[cpu := Nat.iter d next_state (get_cpu_ptr reg cpu)]> reg,
          store_bytes km (buf + 8 * Z.of_nat n)
            (fill_spec (union_bytes bo) d 0 (get_cpu_ptr reg cpu))).
Proof.
  pose proof (words_for_bounds len ltac:(lia)) as HW.
  induction d as [|d IH]; intros n fuel reg km Hcpu Hn Hfuel.
  - rewrite generate_loop_exit.
    + cbn [Nat.iter nat_rect fill_spec Nat.eqb store_bytes].
      now rewrite list_insert_id by now apply get_cpu_ptr_lookup.
    + rewrite loop_counter_test by lia. apply Z.ltb_ge. lia.
  - destruct fuel as [|fuel]; [lia|].
    rewrite generate_loop_round
      by (rewrite loop_counter_test by lia; apply Z.ltb_lt; lia).
    rewrite loop_counter_next by lia.
    replace (8 * (Z.of_nat n + 1)) with (8 * Z.of_nat (S n)) by lia.
    rewrite IH by (rewrite ?length_insert; lia).
    rewrite get_cpu_ptr_insert, list_insert_insert_eq by assumption.
    rewrite <- Nat.iter_succ_r. f_equal. f_equal.
    rewrite (wrap_int_small (8 * Z.of_nat n)) by lia.
    cbn [fill_spec]. unfold store_u64.
    rewrite store_bytes_app, union_bytes_length. f_equal. lia.
Qed.

Lemma generate_loop_spec (fuel : nat) (reg : percpu) (km : mem) :
  (cpu < length reg)%nat -> (words_for len <= fuel)%nat ->
  generate_loop fuel bo reg cpu km buf len 0 =
  Some (<[cpu := Nat.iter (words_for len) next_state (get_cpu_ptr reg cpu)]> reg,
        store_bytes km buf
          (fill_spec (union_bytes bo) (words_for len) 0 (get_cpu_ptr reg cpu))).
Proof.
  intros Hcpu Hfuel.
  pose proof (generate_loop_from (words_for len) 0 fuel reg km Hcpu
                eq_refl Hfuel) as H.
  change (wrap_int (8 * Z.of_nat 0)) with 0 in H.
  change (8 * Z.of_nat 0) with 0 in H. now rewrite Z.add_0_r in H.
Qed.
End Generate.

Lemma union_bytes_nth (bo : byte_order) (w : Z) (r : nat) :
  (r < 8)%nat -> nth r (union_bytes bo w) 0 = native_byte bo w (Z.of_nat r).
Proof.
  intros Hr. do 8 (destruct r as [|r]; [now destruct bo|]). lia.
Qed.

(** Byte [j] of a run of whole words. *)
Lemma fill_spec_whole_nth (emit : Z -> list Z)
    (He : forall w, length (emit w) = 8%nat) (q : nat) :
  forall (s : state) (j : nat),
    (j < 8 * q)%nat ->
    nth j (fill_spec emit q 0 s) 0 =
    nth (j mod 8) (emit (stream_word s (j / 8))) 0.
Proof.
  induction q as [|q IH]; intros s j Hj; [lia|].
  cbn [fill_spec]. destruct (Nat.lt_ge_cases j 8) as [Hlt|Hge].
  - rewrite app_nth1 by (rewrite He; lia).
    now rewrite Nat.div_small, Nat.mod_small by lia.
  - rewrite app_nth2, He by (rewrite He; lia).
    destruct (Nat.le_exists_sub 8 j Hge) as (i & -> & _).
    rewrite Nat.add_sub, IH, stream_word_next by lia.
    replace (i + 8)%nat with (i + 1 * 8)%nat by lia.
    rewrite Nat.div_add, Nat.Div0.mod_add by lia.
    now replace (i / 8 + 1)%nat with (S (i / 8)) by lia.
Qed.

(** The group of byte [j] in a buffer of [len] bytes: its number, the
    place of the byte in it, and its size. *)
Lemma group_bounds (len j : Z) :
  0 <= j < len ->
  0 <= j / 8 /\ 0 <= j mod 8 < Z.min 8 (len - 8 * (j / 8)) /\
  j = 8 * (j / 8) + j mod 8.
Proof.
  intros H. pose proof (Z.div_mod j 8 ltac:(lia)).
  pose proof (Z.mod_pos_bound j 8 ltac:(lia)).
  assert (0 <= j / 8) by (apply Z.div_pos; lia). lia.
Qed.

(** Byte [j] of the scratch block after the generation loop has stored
    the words of [len] bytes at [buf]. *)
Lemma scratch_byte (bo : byte_order) (s : state) (km : mem) (buf len j : Z) :
  0 <= j < len ->
  store_bytes km buf (fill_spec (union_bytes bo) (words_for len) 0 s) (buf + j) =
  native_byte bo (stream_word s (Z.to_nat (j / 8))) (j mod 8).
Proof.
  intros Hj. pose proof (words_for_bounds len ltac:(lia)) as HW.
  rewrite <- (Z2Nat.id j) at 1 by lia.
  rewrite store_bytes_inside
    by (rewrite fill_spec_length; [lia|apply union_bytes_length|lia]).
  rewrite fill_spec_whole_nth by (try apply union_bytes_length; lia).
  rewrite union_bytes_nth by (apply Nat.mod_upper_bound; lia).
  rewrite Nat2Z.inj_mod, Z2Nat.id by lia.
  assert (Ed : Z.of_nat (Z.to_nat j / 8) = j / 8)
    by (rewrite Nat2Z.inj_div, Z2Nat.id by lia; reflexivity).
  now replace (Z.to_nat j / 8)%nat with (Z.to_nat (j / 8)) by lia.
Qed.

(** C2, as the code has it.  For a request of up to [2^31] bytes the
    generation loop of [poc_read] ends, leaves the per-CPU area as
    [random_get_pseudo_bytes] would, and fills the scratch block with the
    same output words, each stored in the byte order of the host: within
    every group of 8 bytes (and the shorter last group) of the first [len]
    bytes, the bytes are those of [random_get_pseudo_bytes] in reverse
    order. *)
Theorem poc_read_scratch_bytes (bo : byte_order) (reg : percpu) (cpu : nat)
    (km m : mem) (buf ptr len : Z) (fuel : nat)
    (Hlen : 0 <= len <= 2 ^ 31) (Hcpu : (cpu < length reg)%nat)
    (Hfuel : (words_for len <= fuel)%nat) :
  exists (reg' : percpu) (km' : mem),
    generate_loop fuel bo reg cpu km buf len 0 = Some (reg', km') /\
    reg' = snd (fst (random_get_pseudo_bytes bo reg cpu m ptr len)) /\
    forall j : Z, 0 <= j < len ->
      km' (buf + j) =
        native_byte bo (stream_word (get_cpu_ptr reg cpu) (Z.to_nat (j / 8)))
                    (j mod 8) /\
      km' (buf + j) =
        snd (random_get_pseudo_bytes bo reg cpu m ptr len)
            (ptr + (8 * (j / 8) + (Z.min 8 (len - 8 * (j / 8)) - 1 - j mod 8))).
Proof.
  eexists; eexists. split; [now apply generate_loop_spec|].
  split; [now rewrite random_get_pseudo_bytes_eq by lia|].
  intros j Hj.
  destruct (group_bounds len j Hj) as (Hq & Hr & Ej).
  pose proof (words_for_bounds len ltac:(lia)) as HW.
  assert (E1 : store_bytes km buf
                 (fill_spec (union_bytes bo) (words_for len) 0
                            (get_cpu_ptr reg cpu)) (buf + j) =
               native_byte bo
                 (stream_word (get_cpu_ptr reg cpu) (Z.to_nat (j / 8))) (j mod 8)).
  { rewrite <- (Z2Nat.id j) at 1 by lia.
    rewrite store_bytes_inside
      by (rewrite fill_spec_length; [lia|apply union_bytes_length|lia]).
    rewrite fill_spec_whole_nth by (try apply union_bytes_length; lia).
    rewrite union_bytes_nth by (apply Nat.mod_upper_bound; lia).
    rewrite Nat2Z.inj_mod, Z2Nat.id by lia.
    assert (Ed : Z.of_nat (Z.to_nat j / 8) = j / 8)
      by (rewrite Nat2Z.inj_div, Z2Nat.id by lia; reflexivity).
    now replace (Z.to_nat j / 8)%nat with (Z.to_nat (j / 8)) by lia. }
  split; [exact E1|]. rewrite E1.
  set (c := Z.min 8 (len - 8 * (j / 8))) in *.
  set (t := c - 1 - j mod 8).
  assert (Ht : 0 <= t < 8) by lia.
  assert (Dt : (8 * (j / 8) + t) / 8 = j / 8).
  { replace (8 * (j / 8) + t) with (t + j / 8 * 8) by lia.
    rewrite Z.div_add, Z.div_small by lia. lia. }
  assert (Mt : (8 * (j / 8) + t) mod 8 = t).
  { replace (8 * (j / 8) + t) with (t + j / 8 * 8) by lia.
    rewrite Z.mod_add, Z.mod_small by lia. lia. }
  rewrite fill_byte by lia. rewrite Dt, Mt. fold c.
  unfold emitted_byte, native_byte. f_equal. destruct bo; lia.
Qed.

Lemma poc_read_scratch_bytes_witness :
  exists (reg' : percpu) (km' : mem),
    generate_loop 2 LittleEndian [State 1 2] 0 (fun _ => 0) 1000 11 0
      = Some (reg', km') /\
    reg' = snd (fst (random_get_pseudo_bytes LittleEndian [State 1 2] 0
                       (fun _ => 0) 100 11)) /\
    forall j : Z, 0 <= j < 11 ->
      km' (1000 + j) =
        native_byte LittleEndian
                    (stream_word (get_cpu_ptr [State 1 2] 0) (Z.to_nat (j / 8)))
                    (j mod 8) /\
      km' (1000 + j) =
        snd (random_get_pseudo_bytes LittleEndian [State 1 2] 0 (fun _ => 0) 100 11)
            (100 + (8 * (j / 8) + (Z.min 8 (11 - 8 * (j / 8)) - 1 - j mod 8))).
Proof.
  apply (poc_read_scratch_bytes LittleEndian [State 1 2] 0 (fun _ => 0)
           (fun _ => 0) 1000 100 11 2).
  - lia.
  - cbn. lia.
  - vm_compute. lia.
Defined.

(** The scratch block of [poc_read] and the bytes of
    [random_get_pseudo_bytes] for the same state and length differ: the
    word [0x800025] lies in the block least significant byte first on a
    little-endian host. *)
Lemma poc_read_scratch_differs :
  match generate_loop 1 LittleEndian [State 1 2] 0 (fun _ => 0) 1000 8 0 with
  | Some (_, km') => map km' [1000; 1001; 1002; 1003; 1004; 1005; 1006; 1007]
  | None => []
  end
  <> map (snd (random_get_pseudo_bytes LittleEndian [State 1 2] 0 (fun _ => 0) 0 8))
         [0; 1; 2; 3; 4; 5; 6; 7].
Proof. vm_compute. discriminate. Qed.

(** ** BulkTransferPath: the copy loop *)

Lemma copy_loop_exit (fuel : nat) (budget : nat -> Z) (km : mem)
    (buffer buf len : Z) (k : nat) (tr : list copy_req) (um : mem) (copied : Z) :
  copy_loop fuel budget km buffer buf len k tr um 0 copied = Some (um, tr).
Proof. now destruct fuel. Qed.

Lemma copy_loop_round (fuel : nat) (budget : nat -> Z) (km : mem)
    (buffer buf len : Z) (k : nat) (tr : list copy_req) (um : mem)
    (left copied : Z) :
  left <> 0 ->
  copy_loop (S fuel) budget km buffer buf len k tr um left copied =
  copy_loop fuel budget km buffer buf len (S k) (CopyReq copied len :: tr)
    (fst (copy_to_user (budget k) um km (buffer + copied) (buf + copied) len))
    (len - Z.min len (Z.max 0 (budget k)))
    (wrap64 (len - (len - Z.min len (Z.max 0 (budget k))))).
Proof.
  intros H. cbn [copy_loop]. destruct (Z.eqb_spec left 0); [contradiction|].
  reflexivity.
Qed.

(** Every call of [copy_to_user] the loop makes asks for [len] bytes,
    whatever was delivered before. *)
Lemma copy_loop_requests (budget : nat -> Z) (km : mem) (buffer buf len : Z)
    (fuel : nat) :
  forall (k : nat) (tr : list copy_req) (um : mem) (left copied : Z)
         (um' : mem) (tr' : list copy_req),
    copy_loop fuel budget km buffer buf len k tr um left copied = Some (um', tr') ->
    Forall (fun r => req_len r = len) tr ->
    Forall (fun r => req_len r = len) tr'.
Proof.
  induction fuel as [|fuel IH]; intros k tr um left copied um' tr' H Htr.
  - cbn in H. destruct (left =? 0); congruence.
  - destruct (Z.eq_dec left 0) as [->|Hne].
    + rewrite copy_loop_exit in H. congruence.
    + rewrite copy_loop_round in H by assumption.
      eapply IH; [exact H|]. constructor; [reflexivity|assumption].
Qed.

(** When no single call can transfer [len] bytes, the loop never ends:
    each round asks for all [len] bytes again and sets [left] to what that
    call did not copy. *)
Lemma copy_loop_spins (budget : nat -> Z) (km : mem) (buffer buf len : Z)
    (Hlen : 0 < len) (Hb : forall k, budget k < len) (fuel : nat) :
  forall (k : nat) (tr : list copy_req) (um : mem) (left copied : Z),
    left <> 0 ->
    copy_loop fuel budget km buffer buf len k tr um left copied = None.
Proof.
  induction fuel as [|fuel IH]; intros k tr um left copied Hne.
  - cbn. now destruct (Z.eqb_spec left 0).
  - rewrite copy_loop_round by assumption. apply IH.
    specialize (Hb k). lia.
Qed.

(** When the first call transfers everything, the loop ends after it. *)
Lemma copy_loop_complete (budget : nat -> Z) (km : mem) (buffer buf len : Z)
    (fuel : nat) (um : mem) :
  0 < len -> len <= budget 0%nat ->
  copy_loop (S fuel) budget km buffer buf len 0 [] um len 0 =
  Some (fun a => if (buffer <=? a) && (a <? buffer + len)
                 then km (buf + (a - buffer)) else um a,
        [CopyReq 0 len]).
Proof.
  intros Hlen Hb. rewrite copy_loop_round by lia.
  replace (len - Z.min len (Z.max 0 (budget 0%nat))) with 0 by lia.
  rewrite copy_loop_exit. unfold copy_to_user; cbn [fst].
  replace (Z.min len (Z.max 0 (budget 0%nat))) with len by lia.
  now rewrite !Z.add_0_r.
Qed.

(** ** BulkTransferPath: [poc_read] as a whole *)

Lemma poc_read_efault (fuel : nat) (bo : byte_order) (K : kernel) (reg : percpu)
    (cpu : nat) (um km : mem) (buffer len : Z) :
  access_ok K buffer len = false ->
  poc_read fuel bo K reg cpu um km buffer len =
  Some (ReadResult (- EFAULT) reg um km None []).
Proof. intros H. unfold poc_read. now rewrite H. Qed.

Lemma poc_read_enomem (fuel : nat) (bo : byte_order) (K : kernel) (reg : percpu)
    (cpu : nat) (um km : mem) (buffer len : Z) :
  access_ok K buffer len = true -> vmalloc K (P2ROUNDUP len 8) = 0 ->
  poc_read fuel bo K reg cpu um km buffer len =
  Some (ReadResult (- ENOMEM) reg um km (Some (P2ROUNDUP len 8)) []).
Proof. intros H1 H2. unfold poc_read. now rewrite H1, H2. Qed.

(** On the path past both checks, what [poc_read] returns is made of the
    results of its two loops. *)
Lemma poc_read_inv (fuel : nat) (bo : byte_order) (K : kernel) (reg : percpu)
    (cpu : nat) (um km : mem) (buffer len : Z) (r : read_result) :
  access_ok K buffer len = true -> vmalloc K (P2ROUNDUP len 8) <> 0 ->
  poc_read fuel bo K reg cpu um km buffer len = Some r ->
  exists reg' km' um' tr,
    generate_loop fuel bo reg cpu km (vmalloc K (P2ROUNDUP len 8)) len 0
      = Some (reg', km') /\
    copy_loop fuel (copy_budget K) km' buffer (vmalloc K (P2ROUNDUP len 8)) len
              0 [] um len 0 = Some (um', tr) /\
    r = ReadResult (wrap_ssize len) reg' um' km' (Some (P2ROUNDUP len 8)) (rev tr).
Proof.
  intros Hacc Halloc. unfold poc_read. rewrite Hacc; cbn [negb].
  destruct (Z.eqb_spec (vmalloc K (P2ROUNDUP len 8)) 0); [contradiction|].
  destruct (generate_loop _ _ _ _ _ _ _ _) as [[reg' km']|] eqn:Eg; [|discriminate].
  destruct (copy_loop _ _ _ _ _ _ _ _ _ _ _) as [[um' tr]|] eqn:Ec; [|discriminate].
  intros [= <-]. exists reg', km', um', tr. now rewrite Ec.
Qed.

(** X11. A request of no bytes: a block of 0 bytes is asked of [vmalloc] and,
    when it is given, neither loop runs. *)
Lemma poc_read_zero_length (fuel : nat) (bo : byte_order) (K : kernel)
    (reg : percpu) (cpu : nat) (um km : mem) (buffer : Z) :
  access_ok K buffer 0 = true -> vmalloc K 0 <> 0 ->
  poc_read fuel bo K reg cpu um km buffer 0 =
  Some (ReadResult 0 reg um km (Some 0) []).
Proof.
  intros H1 H2. unfold poc_read. rewrite H1, P2ROUNDUP_0; cbn [negb].
  destruct (Z.eqb_spec (vmalloc K 0) 0); [contradiction|].
  rewrite generate_loop_exit by reflexivity. now rewrite copy_loop_exit.
Qed.

(** X12. When [copy_to_user] transfers everything at once, a request of up to
    [2^31] bytes returns [len], having copied the first [len] bytes of the
    scratch block to the client and nothing else. *)
Lemma poc_read_complete_copy (fuel : nat) (bo : byte_order) (K : kernel)
    (reg : percpu) (cpu : nat) (um km : mem) (buffer len : Z) :
  0 < len <= 2 ^ 31 -> (cpu < length reg)%nat -> (words_for len < fuel)%nat ->
  access_ok K buffer len = true -> vmalloc K (P2ROUNDUP len 8) <> 0 ->
  len <= copy_budget K 0%nat ->
  exists r : read_result,
    poc_read fuel bo K reg cpu um km buffer len = Some r /\
    rr_ret r = len /\
    rr_alloc r = Some (8 * ((len + 7) / 8)) /\
    rr_copies r = [CopyReq 0 len] /\
    rr_reg r = <[cpu := Nat.iter (words_for len) next_state (get_cpu_ptr reg cpu)]> reg /\
    (forall j, 0 <= j < len ->
       rr_user r (buffer + j) =
       native_byte bo (stream_word (get_cpu_ptr reg cpu) (Z.to_nat (j / 8)))
                   (j mod 8)) /\
    (forall a, a < buffer \/ buffer + len <= a -> rr_user r a = um a).
Proof.
  intros Hlen Hcpu Hfuel Hacc Halloc Hcopy.
  unfold poc_read. rewrite Hacc; cbn [negb].
  destruct (Z.eqb_spec (vmalloc K (P2ROUNDUP len 8)) 0); [contradiction|].
  rewrite generate_loop_spec by lia. destruct fuel as [|fuel]; [lia|].
  rewrite copy_loop_complete by lia.
  eexists. split; [reflexivity|]. cbn [rr_ret rr_alloc rr_copies rr_reg rr_user rev app].
  split; [apply wrap_ssize_small; lia|].
  split; [now rewrite P2ROUNDUP_8 by lia|].
  split; [reflexivity|].
  split; [reflexivity|].
  split.
  - intros j Hj.
    destruct (Z.leb_spec buffer (buffer + j)), (Z.ltb_spec (buffer + j) (buffer + len));
      try lia; cbn [andb].
    replace (buffer + j - buffer) with j by lia. now apply scratch_byte.
  - intros a Ha.
    destruct (Z.leb_spec buffer a), (Z.ltb_spec a (buffer + len));
      try lia; reflexivity.
Qed.

(** When no call of [copy_to_user] can transfer all [len] bytes,
    [poc_read] does not return. *)
Lemma poc_read_never_returns (fuel : nat) (bo : byte_order) (K : kernel)
    (reg : percpu) (cpu : nat) (um km : mem) (buffer len : Z) :
  0 < len -> access_ok K buffer len = true ->
  vmalloc K (P2ROUNDUP len 8) <> 0 ->
  (forall k, copy_budget K k < len) ->
  poc_read fuel bo K reg cpu um km buffer len = None.
Proof.
  intros Hlen Hacc Halloc Hcopy. unfold poc_read. rewrite Hacc; cbn [negb].
  destruct (Z.eqb_spec (vmalloc K (P2ROUNDUP len 8)) 0); [contradiction|].
  destruct (generate_loop _ _ _ _ _ _ _ _) as [[reg' km']|]; [|reflexivity].
  rewrite copy_loop_spins by (assumption || lia). reflexivity.
Qed.

(** C4, where it fails.  With a [copy_to_user] that transfers one byte per
    call, [poc_read] of two bytes or more does not return, however many
    rounds its loops are given: after the first call [left] is [len - 1],
    and every later call asks again for [len] bytes from offset 1 and
    leaves [left] at [len - 1]. *)
Theorem poc_read_one_byte_copy_spins (fuel : nat) (bo : byte_order) (K : kernel)
    (reg : percpu) (cpu : nat) (um km : mem) (buffer len : Z)
    (Hlen : 2 <= len) (Hacc : access_ok K buffer len = true)
    (Halloc : vmalloc K (P2ROUNDUP len 8) <> 0)
    (Hcopy : forall k, copy_budget K k = 1) :
  poc_read fuel bo K reg cpu um km buffer len = None.
Proof.
  apply poc_read_never_returns; try assumption; [lia|].
  intros k. rewrite Hcopy. lia.
Qed.

Lemma poc_read_one_byte_copy_spins_witness :
  poc_read 1000 LittleEndian
           (Kernel (fun _ _ => true) (fun _ => 1000) (fun _ => 1))
           [State 1 2] 0 (fun _ => 0) (fun _ => 0) 100 4095 = None.
Proof.
  apply poc_read_one_byte_copy_spins.
  - lia.
  - reflexivity.
  - cbn [vmalloc]. lia.
  - intros k. reflexivity.
Defined.

(** C1, where it fails.  A request of 8 bytes on a little-endian host,
    the scratch block at 1000, the client buffer at 100, kernel memory
    holding 255 and client memory 0 everywhere before the call;
    [copy_to_user] transfers 1 byte on its first call and up to 8 on the
    next.  The second call asks for 8 bytes at offset 1, not for the 7
    that are left: [poc_read] returns 8, and the client's byte 108, the
    ninth, holds the 255 of kernel address 1008, the byte after the
    scratch block. *)
Theorem poc_read_retry_overruns :
  option_map
    (fun r => (rr_ret r, rr_alloc r, rr_copies r, rr_user r 108, rr_kernel r 1008))
    (poc_read 2 LittleEndian
       (Kernel (fun _ _ => true) (fun _ => 1000)
               (fun k => match k with O => 1 | S _ => 8 end))
       [State 1 2] 0 (fun _ => 0) (fun _ => 255) 100 8)
  = Some (8, Some 8, [CopyReq 0 8; CopyReq 1 8], 255, 255).
Proof. vm_compute. reflexivity. Qed.

(** * Further properties of the code *)

(** ** Sizes *)

(** X1. For a length from 1 to [2^64 - 8], [P2ROUNDUP(len, 8)] is the
    least multiple of 8 that is not below [len]. *)
Theorem P2ROUNDUP_rounds_up (len : Z) (Hlen : 0 < len <= 2 ^ 64 - 8) :
  P2ROUNDUP len 8 mod 8 = 0 /\ len <= P2ROUNDUP len 8 < len + 8.
Proof.
  rewrite P2ROUNDUP_8 by assumption.
  pose proof (Z.div_mod (len + 7) 8 ltac:(lia)) as D.
  pose proof (Z.mod_pos_bound (len + 7) 8 ltac:(lia)) as B.
  split; [|lia].
  rewrite Z.mul_comm. apply Z.mod_mul. lia.
Qed.

Lemma P2ROUNDUP_rounds_up_witness :
  P2ROUNDUP 4097 8 mod 8 = 0 /\ 4097 <= P2ROUNDUP 4097 8 < 4097 + 8.
Proof. apply (P2ROUNDUP_rounds_up 4097). lia. Defined.

(** X2. For the seven lengths above [2^64 - 8] the sum in [P2ROUNDUP]
    wraps: [P2ROUNDUP(len, 8)] is 0. *)
Theorem P2ROUNDUP_wraps (len : Z) (Hlen : 2 ^ 64 - 8 < len < 2 ^ 64) :
  P2ROUNDUP len 8 = 0.
Proof.
  unfold P2ROUNDUP.
  rewrite (wrap64_small (len - 1)) by (unfold is_u64, u64_mod; lia).
  change (wrap64 (8 - 1)) with (Z.ones 3).
  pose proof (Z.add_lor_land (len - 1) (Z.ones 3)) as E.
  rewrite Z.land_ones in E by lia. change (Z.ones 3) with 7 in *.
  change (2 ^ 3) with 8 in E.
  pose proof (Z.div_mod (len - 1) 8 ltac:(lia)) as D.
  pose proof (Z.mod_pos_bound (len - 1) 8 ltac:(lia)) as B.
  assert (Z.lor (len - 1) 7 + 1 = 2 ^ 64) as -> by lia.
  reflexivity.
Qed.

Lemma P2ROUNDUP_wraps_witness : P2ROUNDUP (2 ^ 64 - 1) 8 = 0.
Proof. apply P2ROUNDUP_wraps. lia. Defined.

(** ** Transition *)

Lemma state_xor_eq (a b : state) : state_xor a b = zero_state -> a = b.
Proof.
  destruct a as [a0 a1], b as [b0 b1]. unfold state_xor, zero_state; cbn.
  intros [= E0 E1]. apply Z.lxor_eq in E0, E1. now subst.
Qed.

(** X3. [spl_rand_next] never maps two different 64-bit states to the same
    state: the transition is injective, so streams do not merge. *)
Theorem next_state_injective (a b : state)
    (Ha : state_ok a) (Hb : state_ok b) (E : next_state a = next_state b) :
  a = b.
Proof.
  apply state_xor_eq. apply next_state_zero_inv.
  - now apply state_xor_ok.
  - rewrite next_state_additive, E. apply state_xor_nilpotent.
Qed.

Lemma next_state_injective_witness : State 1 2 = State 1 2.
Proof.
  apply (next_state_injective (State 1 2) (State 1 2)).
  - split; cbn; unfold is_u64, u64_mod; lia.
  - split; cbn; unfold is_u64, u64_mod; lia.
  - reflexivity.
Defined.

(** ** Seeding *)

Lemma next_iter_seeded (n : N) (s : state) : seeded s -> seeded (next_iter n s).
Proof.
  intros Hs. unfold next_iter. apply N.iter_invariant; [|assumption].
  intros x [Hx Hx']. split; [now apply next_state_ok|].
  intros E. apply Hx'. now apply next_state_zero_inv.
Qed.

Lemma jump_iter (k : nat) (s : state) :
  state_ok s ->
  Nat.iter k spl_rand_jump s = next_iter (N.of_nat k * 2 ^ 64) s.
Proof.
  intros Hs. induction k as [|k IH].
  - reflexivity.
  - rewrite Nat.iter_succ, IH.
    rewrite spl_rand_jump_eq by now apply next_iter_ok.
    rewrite <- next_iter_add. f_equal.
    rewrite Nat2N.inj_succ, N.mul_succ_l. apply N.add_comm.
Qed.

Lemma improbable_seed_ok (bo : byte_order) : state_ok (improbable_seed bo).
Proof. destruct bo; split; cbn; unfold is_u64, u64_mod; lia. Qed.

Lemma root_seed_ok (bo : byte_order) (B : boot) :
  state_ok (random_bytes B) -> (forall k, is_u64 (jiffies B k)) ->
  state_ok (root_seed bo B).
Proof.
  intros Hr Hj. unfold root_seed.
  destruct ((s0 (random_bytes B) =? 0) && (s1 (random_bytes B) =? 0));
    [|assumption].
  destruct (negb (jiffies B 0 =? 0)); [|apply improbable_seed_ok].
  split; cbn [s0 s1]; [apply Hj|apply wrap64_u64].
Qed.

(** The RootSeed is all-zero only when the entropy was, the tested read
    of [jiffies] was not, and the two later reads gave 0 and [2^64 - 1]. *)
Lemma root_seed_nonzero (bo : byte_order) (B : boot) :
  is_u64 (jiffies B 2) ->
  (random_bytes B = zero_state -> jiffies B 0 <> 0 ->
   jiffies B 1 <> 0 \/ jiffies B 2 <> 2 ^ 64 - 1) ->
  root_seed bo B <> zero_state.
Proof.
  intros Hj Hclock. unfold root_seed.
  destruct (Z.eqb_spec (s0 (random_bytes B)) 0) as [E0|E0]; cbn [andb].
  - destruct (Z.eqb_spec (s1 (random_bytes B)) 0) as [E1|E1].
    + destruct (Z.eqb_spec (jiffies B 0) 0) as [Ej|Ej]; cbn [negb].
      * apply improbable_seed_nonzero.
      * rewrite complement_u64 by assumption.
        assert (Hz : random_bytes B = zero_state)
          by (destruct (random_bytes B); cbn in *; now subst).
        intros H. injection H as H0 H1.
        destruct (Hclock Hz Ej) as [Hne|Hne]; [contradiction|]. apply Hne.
        apply Z.lxor_eq in H1. rewrite H1. reflexivity.
    + intros H. apply E1. now rewrite H.
  - intros H. apply E0. now rewrite H.
Qed.

Lemma init_slots (bo : byte_order) (B : boot) :
  alloc_percpu_ok B = true ->
  exists reg : percpu,
    spl_random_init bo B = (0, Some reg) /\
    length reg = possible_cpus B /\
    forall i : nat, (i < possible_cpus B)%nat ->
      reg !! i = Some (Nat.iter (S i) spl_rand_jump (root_seed bo B)).
Proof.
  intros Halloc. unfold spl_random_init. rewrite Halloc; cbn [negb].
  destruct (seed_loop (possible_cpus B) 0 (root_seed bo B)
              (replicate (possible_cpus B) zero_state))
    as (reg & Hfold & Hl & _ & Hnew).
  { rewrite length_replicate. lia. }
  exists reg. rewrite Hfold. split; [reflexivity|]. split.
  - now rewrite Hl, length_replicate.
  - intros i Hi. apply (Hnew i Hi).
Qed.

(** X4. After [spl_random_init], the seed of CPU [i] is the RootSeed
    advanced by [(i + 1) * 2^64] calls of [spl_rand_next]: the streams of
    two CPUs next to each other start [2^64] outputs apart. *)
Theorem spl_random_init_spacing (bo : byte_order) (B : boot)
    (Halloc : alloc_percpu_ok B = true)
    (Hrnd : state_ok (random_bytes B)) (Hj : forall k, is_u64 (jiffies B k)) :
  exists reg : percpu,
    snd (spl_random_init bo B) = Some reg /\
    forall i : nat, (i < possible_cpus B)%nat ->
      reg !! i = Some (next_iter (N.of_nat (S i) * 2 ^ 64) (root_seed bo B)).
Proof.
  destruct (init_slots bo B Halloc) as (reg & E & _ & Hslots).
  exists reg. rewrite E. split; [reflexivity|].
  intros i Hi. rewrite (Hslots i Hi). f_equal.
  apply jump_iter. now apply root_seed_ok.
Qed.

Lemma spl_random_init_spacing_witness :
  exists reg : percpu,
    snd (spl_random_init LittleEndian (Boot true 2 (State 1 2) (fun _ => 5%Z))) = Some reg /\
    forall i : nat, (i < possible_cpus (Boot true 2 (State 1 2) (fun _ => 5%Z)))%nat ->
      reg !! i =
      Some (next_iter (N.of_nat (S i) * 2 ^ 64)
                      (root_seed LittleEndian (Boot true 2 (State 1 2) (fun _ => 5%Z)))).
Proof.
  apply (spl_random_init_spacing LittleEndian (Boot true 2 (State 1 2) (fun _ => 5%Z))).
  - reflexivity.
  - split; unfold is_u64, u64_mod, random_bytes, s0, s1; lia.
  - intros k. unfold is_u64, u64_mod, jiffies. lia.
Defined.

(** X5. Every seed [spl_random_init] stores is a pair of 64-bit words
    that are not both zero, whatever 64-bit words [get_random_bytes] and
    the reads of [jiffies] give, but for one case: the entropy is all-zero,
    the tested read of [jiffies] is not zero, and the reads for [s[0]] and
    [s[1]] give 0 and [2^64 - 1]. *)
Theorem spl_random_init_seeded (bo : byte_order) (B : boot)
    (Halloc : alloc_percpu_ok B = true)
    (Hrnd : state_ok (random_bytes B)) (Hj : forall k, is_u64 (jiffies B k))
    (Hclock : random_bytes B = zero_state -> jiffies B 0 <> 0 ->
              jiffies B 1 <> 0 \/ jiffies B 2 <> 2 ^ 64 - 1) :
  exists reg : percpu,
    snd (spl_random_init bo B) = Some reg /\
    length reg = possible_cpus B /\ Forall seeded reg.
Proof.
  destruct (init_slots bo B Halloc) as (reg & E & Hl & Hslots).
  exists reg. rewrite E. split; [reflexivity|]. split; [assumption|].
  apply Forall_lookup. intros i s Hi.
  assert (Hlt : (i < possible_cpus B)%nat)
    by (rewrite <- Hl; eapply lookup_lt_Some; exact Hi).
  rewrite (Hslots i Hlt) in Hi.
  assert (Es : s = Nat.iter (S i) spl_rand_jump (root_seed bo B)) by congruence.
  rewrite Es, jump_iter by now apply root_seed_ok.
  apply next_iter_seeded. split; [now apply root_seed_ok|].
  apply root_seed_nonzero; [apply Hj|exact Hclock].
Qed.

Lemma spl_random_init_seeded_witness :
  exists reg : percpu,
    snd (spl_random_init BigEndian
           (Boot true 3 zero_state (fun k => match k with 2%nat => 6%Z | _ => 5%Z end)))
      = Some reg /\
    length reg =
      possible_cpus
        (Boot true 3 zero_state (fun k => match k with 2%nat => 6%Z | _ => 5%Z end)) /\
    Forall seeded reg.
Proof.
  apply (spl_random_init_seeded BigEndian
           (Boot true 3 zero_state (fun k => match k with 2%nat => 6%Z | _ => 5%Z end))).
  - reflexivity.
  - split; unfold is_u64, u64_mod, random_bytes, zero_state, s0, s1; lia.
  - intros k. cbn [jiffies]. unfold is_u64, u64_mod.
    destruct k as [|[|[|k]]]; lia.
  - intros _ _. left. cbn [jiffies]. lia.
Defined.

(** ** ByteFillService: the per-CPU area *)

(** X6. [random_get_pseudo_bytes] changes the slot of the calling CPU only:
    it advances that state by one transition per started group of 8 bytes
    and leaves the number of slots and every other slot as they were. *)
Theorem random_get_pseudo_bytes_registry (bo : byte_order) (reg : percpu)
    (cpu : nat) (m : mem) (ptr len : Z)
    (Hlen : 0 <= len) (Hcpu : (cpu < length reg)%nat) :
  length (snd (fst (random_get_pseudo_bytes bo reg cpu m ptr len))) = length reg /\
  snd (fst (random_get_pseudo_bytes bo reg cpu m ptr len)) !! cpu =
    Some (Nat.iter (words_for len) next_state (get_cpu_ptr reg cpu)) /\
  forall c : nat, c <> cpu ->
    snd (fst (random_get_pseudo_bytes bo reg cpu m ptr len)) !! c = reg !! c.
Proof.
  rewrite random_get_pseudo_bytes_eq by assumption. cbn [fst snd].
  split; [apply length_insert|]. split.
  - now apply list_lookup_insert_eq.
  - intros c Hc. apply list_lookup_insert_ne. congruence.
Qed.

Lemma random_get_pseudo_bytes_registry_witness :
  length (snd (fst (random_get_pseudo_bytes LittleEndian [State 1 2; State 3 4] 1
                      (fun _ => 0) 100 11)))
    = length [State 1 2; State 3 4] /\
  snd (fst (random_get_pseudo_bytes LittleEndian [State 1 2; State 3 4] 1
              (fun _ => 0) 100 11)) !! 1%nat =
    Some (Nat.iter (words_for 11) next_state
                   (get_cpu_ptr [State 1 2; State 3 4] 1)) /\
  forall c : nat, c <> 1%nat ->
    snd (fst (random_get_pseudo_bytes LittleEndian [State 1 2; State 3 4] 1
                (fun _ => 0) 100 11)) !! c
    = [State 1 2; State 3 4] !! c.
Proof.
  apply (random_get_pseudo_bytes_registry LittleEndian [State 1 2; State 3 4] 1
           (fun _ => 0) 100 11).
  - lia.
  - cbn [length]. lia.
Defined.

Lemma fill_spec_app (emit : Z -> list Z) (a q k : nat) :
  forall s : state,
    fill_spec emit (a + q) k s =
    fill_spec emit a 0 s ++ fill_spec emit q k (Nat.iter a next_state s).
Proof.
  induction a as [|a IH]; intros s.
  - reflexivity.
  - cbn [Nat.add fill_spec]. rewrite IH, <- app_assoc, Nat.iter_succ_r.
    reflexivity.
Qed.

Lemma words_for_add (a : nat) (len : Z) :
  0 <= len -> words_for (8 * Z.of_nat a + len) = (a + words_for len)%nat.
Proof.
  intros H. unfold words_for.
  replace (8 * Z.of_nat a + len + 7) with (len + 7 + Z.of_nat a * 8) by lia.
  rewrite Z.div_add by lia.
  assert (0 <= (len + 7) / 8) by (apply Z.div_pos; lia). lia.
Qed.

(** X7. Two calls of [random_get_pseudo_bytes] in a row on the same CPU,
    the first for a whole number of 8-byte groups and the second writing
    right behind it, leave the memory and the per-CPU area that one call
    for the total length leaves. *)
Theorem random_get_pseudo_bytes_compose (bo : byte_order) (reg : percpu)
    (cpu : nat) (m : mem) (ptr : Z) (a : nat) (len2 : Z)
    (Hlen2 : 0 <= len2) (Hcpu : (cpu < length reg)%nat) :
  random_get_pseudo_bytes bo
    (snd (fst (random_get_pseudo_bytes bo reg cpu m ptr (8 * Z.of_nat a))))
    cpu
    (snd (random_get_pseudo_bytes bo reg cpu m ptr (8 * Z.of_nat a)))
    (ptr + 8 * Z.of_nat a) len2
  = random_get_pseudo_bytes bo reg cpu m ptr (8 * Z.of_nat a + len2).
Proof.
  assert (Wa : words_for (8 * Z.of_nat a) = a).
  { replace (8 * Z.of_nat a) with (8 * Z.of_nat a + 0) by lia.
    rewrite words_for_add by lia. change (words_for 0) with 0%nat. lia. }
  assert (Da : Z.to_nat ((8 * Z.of_nat a) / 8) = a).
  { rewrite Z.mul_comm, Z.div_mul by lia. apply Nat2Z.id. }
  assert (Ma : Z.to_nat ((8 * Z.of_nat a) mod 8) = 0%nat).
  { rewrite Z.mul_comm, Z.mod_mul by lia. reflexivity. }
  assert (Hq : 0 <= len2 / 8) by (apply Z.div_pos; lia).
  assert (Dt : Z.to_nat ((8 * Z.of_nat a + len2) / 8)
               = (a + Z.to_nat (len2 / 8))%nat).
  { replace (8 * Z.of_nat a + len2) with (len2 + Z.of_nat a * 8) by lia.
    rewrite Z.div_add by lia. lia. }
  assert (Mt : (8 * Z.of_nat a + len2) mod 8 = len2 mod 8).
  { replace (8 * Z.of_nat a + len2) with (len2 + Z.of_nat a * 8) by lia.
    apply Z.mod_add. lia. }
  rewrite (random_get_pseudo_bytes_eq bo reg cpu m ptr (8 * Z.of_nat a)) by lia.
  cbn [fst snd].
  rewrite !random_get_pseudo_bytes_eq by lia.
  rewrite get_cpu_ptr_insert, list_insert_insert_eq by assumption.
  rewrite Wa, Da, Ma, Dt, Mt, words_for_add, fill_spec_app by lia.
  rewrite store_bytes_app, fill_spec_length by (try apply emission_length; lia).
  rewrite (Nat.add_comm a (words_for len2)), Nat.iter_add.
  do 2 f_equal. f_equal. lia.
Qed.

Lemma random_get_pseudo_bytes_compose_witness :
  random_get_pseudo_bytes LittleEndian
    (snd (fst (random_get_pseudo_bytes LittleEndian [State 1 2] 0 (fun _ => 0)
                 100 (8 * Z.of_nat 2))))
    0
    (snd (random_get_pseudo_bytes LittleEndian [State 1 2] 0 (fun _ => 0)
            100 (8 * Z.of_nat 2)))
    (100 + 8 * Z.of_nat 2) 3
  = random_get_pseudo_bytes LittleEndian [State 1 2] 0 (fun _ => 0)
      100 (8 * Z.of_nat 2 + 3).
Proof.
  apply (random_get_pseudo_bytes_compose LittleEndian [State 1 2] 0 (fun _ => 0)
           100 2 3).
  - lia.
  - cbn [length]. lia.
Defined.

(** ** The seeds stay usable *)

Lemma next_state_seeded (s : state) : seeded s -> seeded (next_state s).
Proof.
  intros [Hs Hnz]. split; [now apply next_state_ok|].
  intros E. apply Hnz. now apply next_state_zero_inv.
Qed.

Lemma nat_iter_seeded (n : nat) (s : state) :
  seeded s -> seeded (Nat.iter n next_state s).
Proof.
  intros Hs. induction n as [|n IH]; [exact Hs|].
  rewrite Nat.iter_succ. now apply next_state_seeded.
Qed.

Lemma get_cpu_ptr_seeded (reg : percpu) (cpu : nat) :
  Forall seeded reg -> (cpu < length reg)%nat -> seeded (get_cpu_ptr reg cpu).
Proof.
  intros Hreg Hcpu. eapply Forall_lookup_1; [exact Hreg|].
  now apply get_cpu_ptr_lookup.
Qed.

Lemma insert_seeded (reg : percpu) (cpu : nat) (s : state) :
  Forall seeded reg -> ((cpu < length reg)%nat -> seeded s) ->
  Forall seeded (<[cpu := s]> reg).
Proof.
  intros Hreg Hs. destruct (Nat.lt_ge_cases cpu (length reg)) as [Hlt|Hge].
  - apply Forall_insert; auto.
  - now rewrite list_insert_ge.
Qed.

(** X8. If every slot of the per-CPU area holds 64-bit words that are not
    both zero, so it does after [random_get_pseudo_bytes], for every CPU
    number and every length. *)
Theorem random_get_pseudo_bytes_keeps_seeded (bo : byte_order) (reg : percpu)
    (cpu : nat) (m : mem) (ptr len : Z) (Hreg : Forall seeded reg) :
  Forall seeded (snd (fst (random_get_pseudo_bytes bo reg cpu m ptr len))).
Proof.
  destruct (Z.le_gt_cases 0 len) as [Hlen|Hlen].
  - rewrite random_get_pseudo_bytes_eq by assumption. cbn [fst snd].
    apply insert_seeded; [assumption|]. intros Hcpu.
    apply nat_iter_seeded. now apply get_cpu_ptr_seeded.
  - unfold random_get_pseudo_bytes. rewrite fill_loop_done by lia.
    rewrite !state_eta. cbn [fst snd].
    apply insert_seeded; [assumption|]. intros Hcpu.
    now apply get_cpu_ptr_seeded.
Qed.

Lemma random_get_pseudo_bytes_keeps_seeded_witness :
  Forall seeded
    (snd (fst (random_get_pseudo_bytes BigEndian [State 1 0; State 0 7] 0
                 (fun _ => 0) 100 20))).
Proof.
  apply (random_get_pseudo_bytes_keeps_seeded BigEndian [State 1 0; State 0 7] 0
           (fun _ => 0) 100 20).
  repeat constructor; cbn; unfold is_u64, u64_mod; try lia; discriminate.
Defined.

Lemma generate_loop_keeps_seeded (bo : byte_order) (cpu : nat) (buf len : Z)
    (fuel : nat) :
  forall (reg : percpu) (km : mem) (i : Z) (reg' : percpu) (km' : mem),
    generate_loop fuel bo reg cpu km buf len i = Some (reg', km') ->
    Forall seeded reg -> Forall seeded reg'.
Proof.
  induction fuel as [|fuel IH]; intros reg km i reg' km' H Hreg.
  - cbn in H. destruct (wrap64 i <? len); congruence.
  - destruct (wrap64 i <? len) eqn:Et.
    + rewrite generate_loop_round in H by assumption.
      eapply IH; [exact H|]. apply insert_seeded; [assumption|].
      intros Hcpu. apply next_state_seeded. now apply get_cpu_ptr_seeded.
    + rewrite generate_loop_exit in H by assumption. congruence.
Qed.

(** X9. Whenever [poc_read] returns, with an error or not, a per-CPU area
    whose slots all held 64-bit words not both zero still does. *)
Theorem poc_read_keeps_seeded (fuel : nat) (bo : byte_order) (K : kernel)
    (reg : percpu) (cpu : nat) (um km : mem) (buffer len : Z)
    (Hreg : Forall seeded reg) :
  match poc_read fuel bo K reg cpu um km buffer len with
  | Some r => Forall seeded (rr_reg r)
  | None => True
  end.
Proof.
  unfold poc_read. destruct (access_ok K buffer len); cbn [negb]; [|exact Hreg].
  destruct (vmalloc K (P2ROUNDUP len 8) =? 0); [exact Hreg|].
  destruct (generate_loop _ _ _ _ _ _ _ _) as [[reg' km']|] eqn:Eg; [|exact I].
  destruct (copy_loop _ _ _ _ _ _ _ _ _ _ _) as [[um' tr]|]; [|exact I].
  cbn [rr_reg]. eapply generate_loop_keeps_seeded; eassumption.
Qed.

Lemma poc_read_keeps_seeded_witness :
  match poc_read 5 LittleEndian
          (Kernel (fun _ _ => true) (fun _ => 1000) (fun _ => 64))
          [State 1 2] 0 (fun _ => 0) (fun _ => 0) 100 20 with
  | Some r => Forall seeded (rr_reg r)
  | None => True
  end.
Proof.
  apply (poc_read_keeps_seeded 5 LittleEndian
           (Kernel (fun _ _ => true) (fun _ => 1000) (fun _ => 64))
           [State 1 2] 0 (fun _ => 0) (fun _ => 0) 100 20).
  repeat constructor; cbn; unfold is_u64, u64_mod; try lia; discriminate.
Defined.

(** ** BulkTransferPath: what a call touches *)



Lemma poc_read_zero_length_witness :
  poc_read 0 BigEndian (Kernel (fun _ _ => true) (fun _ => 1000) (fun _ => 1))
           [State 1 2] 0 (fun _ => 0) (fun _ => 0) 100 0 =
  Some (ReadResult 0 [State 1 2] (fun _ => 0) (fun _ => 0) (Some 0) []).
Proof.
  apply poc_read_zero_length.
  - reflexivity.
  - cbn [vmalloc]. lia.
Defined.

Lemma poc_read_complete_copy_witness :
  exists r : read_result,
    poc_read 5 LittleEndian
             (Kernel (fun _ _ => true) (fun _ => 1000) (fun _ => 4096))
             [State 1 2] 0 (fun _ => 0) (fun _ => 0) 100 20 = Some r /\
    rr_ret r = 20 /\
    rr_alloc r = Some (8 * ((20 + 7) / 8)) /\
    rr_copies r = [CopyReq 0 20] /\
    rr_reg r = <[0%nat := Nat.iter (words_for 20) next_state
                            (get_cpu_ptr [State 1 2] 0)]> [State 1 2] /\
    (forall j, 0 <= j < 20 ->
       rr_user r (100 + j) =
       native_byte LittleEndian
                   (stream_word (get_cpu_ptr [State 1 2] 0) (Z.to_nat (j / 8)))
                   (j mod 8)) /\
    (forall a, a < 100 \/ 100 + 20 <= a -> rr_user r a = (fun _ => 0) a).
Proof.
  apply (poc_read_complete_copy 5 LittleEndian
           (Kernel (fun _ _ => true) (fun _ => 1000) (fun _ => 4096))
           [State 1 2] 0 (fun _ => 0) (fun _ => 0) 100 20).
  - lia.
  - cbn [length]. lia.
  - vm_compute. lia.
  - reflexivity.
  - cbn [vmalloc]. lia.
  - cbn [copy_budget]. lia.
Defined.

(** X13. A negative result of [poc_read] for a length below [2^63] is one
    of its two error codes and means the call touched nothing: the per-CPU
    area, client memory and kernel memory are as before and
    [copy_to_user] was not called; with [-EFAULT], [vmalloc] was not called
    either. *)
Theorem poc_read_error_no_effect (fuel : nat) (bo : byte_order) (K : kernel)
    (reg : percpu) (cpu : nat) (um km : mem) (buffer len : Z)
    (Hlen : 0 <= len < 2 ^ 63) :
  match poc_read fuel bo K reg cpu um km buffer len with
  | Some r =>
      rr_ret r < 0 ->
      (rr_ret r = - EFAULT /\ access_ok K buffer len = false /\ rr_alloc r = None
       \/ rr_ret r = - ENOMEM /\ vmalloc K (P2ROUNDUP len 8) = 0) /\
      rr_reg r = reg /\ rr_user r = um /\ rr_kernel r = km /\ rr_copies r = []
  | None => True
  end.
Proof.
  unfold poc_read. destruct (access_ok K buffer len); cbn [negb].
  - destruct (Z.eqb_spec (vmalloc K (P2ROUNDUP len 8)) 0) as [E|E].
    + intros _. cbn. split; [right; split; [reflexivity|exact E]|].
      repeat split; reflexivity.
    + destruct (generate_loop _ _ _ _ _ _ _ _) as [[reg' km']|]; [|exact I].
      destruct (copy_loop _ _ _ _ _ _ _ _ _ _ _) as [[um' tr]|]; [|exact I].
      cbn [rr_ret]. rewrite wrap_ssize_small by lia. lia.
  - intros _. cbn. split; [left; repeat split; reflexivity|].
    repeat split; reflexivity.
Qed.

Lemma poc_read_error_no_effect_witness :
  match poc_read 5 LittleEndian
          (Kernel (fun _ _ => false) (fun _ => 1000) (fun _ => 4096))
          [State 1 2] 0 (fun _ => 0) (fun _ => 0) 100 20 with
  | Some r =>
      rr_ret r < 0 ->
      (rr_ret r = - EFAULT /\
       access_ok (Kernel (fun _ _ => false) (fun _ => 1000) (fun _ => 4096))
                 100 20 = false /\ rr_alloc r = None
       \/ rr_ret r = - ENOMEM /\
          vmalloc (Kernel (fun _ _ => false) (fun _ => 1000) (fun _ => 4096))
                  (P2ROUNDUP 20 8) = 0) /\
      rr_reg r = [State 1 2] /\ rr_user r = (fun _ => 0) /\
      rr_kernel r = (fun _ => 0) /\ rr_copies r = []
  | None => True
  end.
Proof.
  apply (poc_read_error_no_effect 5 LittleEndian
           (Kernel (fun _ _ => false) (fun _ => 1000) (fun _ => 4096))
           [State 1 2] 0 (fun _ => 0) (fun _ => 0) 100 20).
  lia.
Defined.

(** ** BulkTransferPath: when the copy loop ends *)

(** The loop from call [k] on, when call [k + d] is the first able to
    transfer [len] bytes. *)
Lemma copy_loop_until (budget : nat -> Z) (km : mem) (buffer buf len : Z)
    (Hlen : 0 < len < 2 ^ 64) (d : nat) :
  forall (k fuel : nat) (tr : list copy_req) (um : mem) (left copied : Z),
    left <> 0 ->
    (forall k', (k <= k' < k + d)%nat -> budget k' < len) ->
    len <= budget (k + d)%nat ->
    (d < fuel)%nat ->
    exists (um' : mem) (tr' : list copy_req),
      copy_loop fuel budget km buffer buf len k tr um left copied
        = Some (um', tr') /\
      length tr' = (length tr + S d)%nat /\
      forall j, 0 <= j < len ->
        um' (buffer + match d with
                      | O => copied
                      | S d' => Z.max 0 (budget (k + d')%nat)
                      end + j)
        = km (buf + match d with
                    | O => copied
                    | S d' => Z.max 0 (budget (k + d')%nat)
                    end + j).
Proof.
  induction d as [|d IH]; intros k fuel tr um left copied Hleft Hlow Hfull Hfuel;
    (destruct fuel as [|fuel]; [lia|]); rewrite copy_loop_round by assumption.
  - rewrite Nat.add_0_r in Hfull.
    replace (len - Z.min len (Z.max 0 (budget k))) with 0 by lia.
    rewrite copy_loop_exit. eexists; eexists. split; [reflexivity|].
    split; [cbn [length]; lia|].
    intros j Hj. unfold copy_to_user; cbn [fst].
    replace (Z.min len (Z.max 0 (budget k))) with len by lia.
    destruct (Z.leb_spec (buffer + copied) (buffer + copied + j)),
             (Z.ltb_spec (buffer + copied + j) (buffer + copied + len));
      try lia; cbn [andb].
    f_equal. lia.
  - pose proof (Hlow k ltac:(lia)) as Hk.
    assert (Ec : wrap64 (len - (len - Z.min len (Z.max 0 (budget k))))
                 = Z.max 0 (budget k)).
    { rewrite wrap64_small by (unfold is_u64, u64_mod; lia). lia. }
    rewrite Ec.
    destruct (IH (S k) fuel (CopyReq copied len :: tr)
                (fst (copy_to_user (budget k) um km (buffer + copied)
                        (buf + copied) len))
                (len - Z.min len (Z.max 0 (budget k))) (Z.max 0 (budget k)))
      as (um' & tr' & Hrun & Hlen' & Hmem).
    + lia.
    + intros k' Hk'. apply Hlow. lia.
    + now replace (S k + d)%nat with (k + S d)%nat by lia.
    + lia.
    + exists um', tr'. split; [exact Hrun|]. split; [cbn [length] in Hlen'; lia|].
      intros j Hj. specialize (Hmem j Hj). destruct d as [|d].
      * now rewrite Nat.add_0_r.
      * now replace (k + S d)%nat with (S k + d)%nat by lia.
Qed.

(** X14. [poc_read] returns as soon as one call of [copy_to_user]
    transfers [len] bytes: if call number [k0] is the first able to, the
    function returns [len] after [k0 + 1] calls.  That last call copies
    [len] bytes from the offset the call before it reached, so when
    [k0 > 0] the client receives the bytes of kernel memory from that
    offset in the scratch block on, not the block from its start. *)
Theorem poc_read_returns_after (k0 fuel : nat) (bo : byte_order) (K : kernel)
    (reg : percpu) (cpu : nat) (um km : mem) (buffer len : Z)
    (Hlen : 0 < len <= 2 ^ 31) (Hcpu : (cpu < length reg)%nat)
    (Hacc : access_ok K buffer len = true)
    (Halloc : vmalloc K (P2ROUNDUP len 8) <> 0)
    (Hlow : forall k, (k < k0)%nat -> copy_budget K k < len)
    (Hfull : len <= copy_budget K k0)
    (Hfuel : (k0 < fuel)%nat) (Hgen : (words_for len <= fuel)%nat) :
  exists r : read_result,
    poc_read fuel bo K reg cpu um km buffer len = Some r /\
    rr_ret r = len /\
    length (rr_copies r) = S k0 /\
    forall j, 0 <= j < len ->
      rr_user r (buffer + match k0 with
                          | O => 0
                          | S k => Z.max 0 (copy_budget K k)
                          end + j)
      = rr_kernel r (vmalloc K (P2ROUNDUP len 8)
                     + match k0 with
                       | O => 0
                       | S k => Z.max 0 (copy_budget K k)
                       end + j).
Proof.
  unfold poc_read. rewrite Hacc; cbn [negb].
  destruct (Z.eqb_spec (vmalloc K (P2ROUNDUP len 8)) 0); [contradiction|].
  rewrite generate_loop_spec by (assumption || lia).
  match goal with
  | |- context [copy_loop fuel (copy_budget K) ?km' buffer ?buf len 0 [] um len 0] =>
      destruct (copy_loop_until (copy_budget K) km' buffer buf len ltac:(lia) k0
                  0 fuel [] um len 0)
        as (um' & tr' & Hrun & Hlen' & Hmem)
  end.
  - lia.
  - intros k' Hk'. apply Hlow. lia.
  - exact Hfull.
  - exact Hfuel.
  - rewrite Hrun. eexists. split; [reflexivity|].
    cbn [rr_ret rr_copies rr_user rr_kernel].
    split; [apply wrap_ssize_small; lia|].
    split; [rewrite length_rev; cbn [length] in Hlen'; lia|].
    exact Hmem.
Qed.

Lemma poc_read_returns_after_witness :
  exists r : read_result,
    poc_read 5 LittleEndian
      (Kernel (fun _ _ => true) (fun _ => 1000)
              (fun k => match k with O => 3 | S _ => 64 end))
      [State 1 2] 0 (fun _ => 0) (fun _ => 0) 100 20 = Some r /\
    rr_ret r = 20 /\
    length (rr_copies r) = 2%nat /\
    forall j, 0 <= j < 20 ->
      rr_user r (100 + match 1%nat with
                       | O => 0
                       | S k => Z.max 0
                                  (copy_budget
                                     (Kernel (fun _ _ => true) (fun _ => 1000)
                                        (fun k => match k with O => 3 | S _ => 64 end))
                                     k)
                       end + j)
      = rr_kernel r
          (vmalloc (Kernel (fun _ _ => true) (fun _ => 1000)
                      (fun k => match k with O => 3 | S _ => 64 end))
                   (P2ROUNDUP 20 8)
           + match 1%nat with
             | O => 0
             | S k => Z.max 0
                        (copy_budget
                           (Kernel (fun _ _ => true) (fun _ => 1000)
                              (fun k => match k with O => 3 | S _ => 64 end))
                           k)
             end + j).
Proof.
  apply (poc_read_returns_after 1 5 LittleEndian
           (Kernel (fun _ _ => true) (fun _ => 1000)
                   (fun k => match k with O => 3 | S _ => 64 end))
           [State 1 2] 0 (fun _ => 0) (fun _ => 0) 100 20).
  - lia.
  - cbn [length]. lia.
  - reflexivity.
  - cbn [vmalloc]. lia.
  - intros k Hk. assert (k = 0%nat) as -> by lia. cbn [copy_budget]. lia.
  - cbn [copy_budget]. lia.
  - lia.
  - vm_compute. lia.
Defined.

Lemma copy_loop_returns_inv (budget : nat -> Z) (km : mem) (buffer buf len : Z)
    (Hlen : 0 < len) (fuel : nat) :
  forall (k : nat) (tr : list copy_req) (um : mem) (left copied : Z)
         (res : mem * list copy_req),
    copy_loop fuel budget km buffer buf len k tr um left copied = Some res ->
    left = 0 \/ exists k', len <= budget k'.
Proof.
  induction fuel as [|fuel IH]; intros k tr um left copied res H;
    (destruct (Z.eq_dec left 0) as [E|E]; [apply or_introl; exact E|]).
  - cbn [copy_loop] in H. rewrite (proj2 (Z.eqb_neq left 0) E) in H.
    discriminate.
  - rewrite copy_loop_round in H by assumption.
    apply IH in H. destruct H as [H|H]; [|right; exact H].
    right. exists k. lia.
Qed.

(** X15. The other way round: when [poc_read] returns without an error
    for a length that is not 0, some call of [copy_to_user] was able to
    transfer all [len] bytes at once. *)
Theorem poc_read_returns_only_if (fuel : nat) (bo : byte_order) (K : kernel)
    (reg : percpu) (cpu : nat) (um km : mem) (buffer len : Z)
    (Hlen : 0 < len) (Hacc : access_ok K buffer len = true)
    (Halloc : vmalloc K (P2ROUNDUP len 8) <> 0) :
  match poc_read fuel bo K reg cpu um km buffer len with
  | Some r => exists k : nat, len <= copy_budget K k
  | None => True
  end.
Proof.
  unfold poc_read. rewrite Hacc; cbn [negb].
  destruct (Z.eqb_spec (vmalloc K (P2ROUNDUP len 8)) 0); [contradiction|].
  destruct (generate_loop _ _ _ _ _ _ _ _) as [[reg' km']|]; [|exact I].
  destruct (copy_loop _ _ _ _ _ _ _ _ _ _ _) as [res|] eqn:Ec; [|exact I].
  destruct res as [um' tr].
  apply copy_loop_returns_inv in Ec; [|assumption].
  destruct Ec as [E|E]; [lia|exact E].
Qed.

Lemma poc_read_returns_only_if_witness :
  match poc_read 5 LittleEndian
          (Kernel (fun _ _ => true) (fun _ => 1000)
                  (fun k => match k with O => 3 | S _ => 64 end))
          [State 1 2] 0 (fun _ => 0) (fun _ => 0) 100 20 with
  | Some r =>
      exists k : nat,
        20 <= copy_budget
                (Kernel (fun _ _ => true) (fun _ => 1000)
                        (fun k => match k with O => 3 | S _ => 64 end)) k
  | None => True
  end.
Proof.
  apply (poc_read_returns_only_if 5 LittleEndian
           (Kernel (fun _ _ => true) (fun _ => 1000)
                   (fun k => match k with O => 3 | S _ => 64 end))
           [State 1 2] 0 (fun _ => 0) (fun _ => 0) 100 20).
  - lia.
  - reflexivity.
  - cbn [vmalloc]. lia.
Defined.

(** ** BulkTransferPath: requests above [2^31] bytes *)

Section Rounds.
Variables (bo : byte_order) (cpu : nat) (buf len : Z) (W : nat).
Hypothesis HW : 8 * Z.of_nat W <= 2 ^ 31.
Hypothesis Hin : forall n : nat, (n < W)%nat -> 8 * Z.of_nat n < len.
Hypothesis Hout : (wrap64 (wrap_int (8 * Z.of_nat W)) <? len) = false.

(** The generation loop when it makes [W] rounds: from round [n] on, with
    [d] rounds to go. *)
Lemma generate_loop_rounds (d : nat) :
  forall (n fuel : nat) (reg : percpu) (km : mem),
    (cpu < length reg)%nat ->
    (n + d)%nat = W ->
    (d <= fuel)%nat ->
    generate_loop fuel bo reg cpu km buf len (wrap_int (8 * Z.of_nat n)) =
    Some (<[cpu := Nat.iter d next_state (get_cpu_ptr reg cpu)]> reg,
          store_bytes km (buf + 8 * Z.of_nat n)
            (fill_spec (union_bytes bo) d 0 (get_cpu_ptr reg cpu))).
Proof.
  induction d as [|d IH]; intros n fuel reg km Hcpu Hn Hfuel.
  - rewrite Nat.add_0_r in Hn. subst n. rewrite generate_loop_exit by exact Hout.
    cbn [Nat.iter nat_rect fill_spec Nat.eqb store_bytes].
    now rewrite list_insert_id by now apply get_cpu_ptr_lookup.
  - destruct fuel as [|fuel]; [lia|].
    pose proof (Hin n ltac:(lia)) as Hlt.
    assert (Hsmall : wrap64 (wrap_int (8 * Z.of_nat n)) = 8 * Z.of_nat n).
    { rewrite wrap_int_small by lia.
      apply wrap64_small. unfold is_u64, u64_mod. lia. }
    rewrite generate_loop_round by (rewrite Hsmall; apply Z.ltb_lt; lia).
    rewrite loop_counter_next by lia.
    replace (8 * (Z.of_nat n + 1)) with (8 * Z.of_nat (S n)) by lia.
    rewrite IH by (rewrite ?length_insert; lia).
    rewrite get_cpu_ptr_insert, list_insert_insert_eq by assumption.
    rewrite <- Nat.iter_succ_r. f_equal. f_equal.
    rewrite (wrap_int_small (8 * Z.of_nat n)) by lia.
    cbn [fill_spec]. unfold store_u64.
    rewrite store_bytes_app, union_bytes_length. f_equal. lia.
Qed.
End Rounds.

(** X16. The counter of the generation loop is an [int].  For a length
    above [2^31] (and below [2^63]) the loop stops after [2^28] rounds,
    when the counter wraps: only the first [2^31] bytes of the scratch
    block are generated.  When [copy_to_user] then transfers everything
    at once, the call returns [len] and the client's bytes from [2^31] on
    are what kernel memory held at that place of the block before the
    call. *)
Theorem poc_read_above_2G (fuel : nat) (bo : byte_order) (K : kernel)
    (reg : percpu) (cpu : nat) (um km : mem) (buffer len : Z)
    (Hlen : 2 ^ 31 < len < 2 ^ 63) (Hcpu : (cpu < length reg)%nat)
    (Hfuel : (Z.to_nat (2 ^ 28) < fuel)%nat)
    (Hacc : access_ok K buffer len = true)
    (Halloc : vmalloc K (P2ROUNDUP len 8) <> 0)
    (Hcopy : len <= copy_budget K 0%nat) :
  exists r : read_result,
    poc_read fuel bo K reg cpu um km buffer len = Some r /\
    rr_ret r = len /\
    rr_reg r = <[cpu := Nat.iter (Z.to_nat (2 ^ 28)) next_state
                                 (get_cpu_ptr reg cpu)]> reg /\
    (forall j, 0 <= j < 2 ^ 31 ->
       rr_user r (buffer + j) =
       native_byte bo (stream_word (get_cpu_ptr reg cpu) (Z.to_nat (j / 8)))
                   (j mod 8)) /\
    (forall j, 2 ^ 31 <= j < len ->
       rr_user r (buffer + j) = km (vmalloc K (P2ROUNDUP len 8) + j)).
Proof.
  assert (EW : Z.of_nat (Z.to_nat (2 ^ 28)) = 2 ^ 28) by (apply Z2Nat.id; lia).
  pose proof (generate_loop_rounds bo cpu (vmalloc K (P2ROUNDUP len 8)) len
                (Z.to_nat (2 ^ 28))) as Hgen.
  specialize (Hgen ltac:(lia)).
  specialize (Hgen ltac:(intros n Hn; lia)).
  assert (Hout : (wrap64 (wrap_int (8 * Z.of_nat (Z.to_nat (2 ^ 28)))) <? len)
                 = false).
  { rewrite EW. change (wrap64 (wrap_int (8 * 2 ^ 28))) with (2 ^ 64 - 2 ^ 31).
    apply Z.ltb_ge. lia. }
  specialize (Hgen Hout (Z.to_nat (2 ^ 28)) 0%nat fuel reg km Hcpu
                (Nat.add_0_l _) (Nat.lt_le_incl _ _ Hfuel)).
  change (wrap_int (8 * Z.of_nat 0)) with 0 in Hgen.
  change (8 * Z.of_nat 0) with 0 in Hgen. rewrite Z.add_0_r in Hgen.
  unfold poc_read. rewrite Hacc; cbn [negb].
  destruct (Z.eqb_spec (vmalloc K (P2ROUNDUP len 8)) 0); [contradiction|].
  rewrite Hgen. destruct fuel as [|fuel]; [lia|].
  rewrite copy_loop_complete by lia.
  eexists. split; [reflexivity|]. cbn [rr_ret rr_reg rr_user].
  split; [apply wrap_ssize_small; lia|].
  split; [reflexivity|].
  assert (Hl : Z.of_nat (length (fill_spec (union_bytes bo) (Z.to_nat (2 ^ 28)) 0
                                   (get_cpu_ptr reg cpu))) = 2 ^ 31).
  { rewrite fill_spec_length by (try apply union_bytes_length; lia). lia. }
  split.
  - intros j Hj.
    destruct (Z.leb_spec buffer (buffer + j)), (Z.ltb_spec (buffer + j) (buffer + len));
      try lia; cbn [andb].
    replace (buffer + j - buffer) with j by lia.
    rewrite <- (Z2Nat.id j) at 1 by lia.
    rewrite store_bytes_inside by lia.
    rewrite fill_spec_whole_nth by (try apply union_bytes_length; lia).
    rewrite union_bytes_nth by (apply Nat.mod_upper_bound; lia).
    rewrite Nat2Z.inj_mod, Z2Nat.id by lia.
    assert (Ed : Z.of_nat (Z.to_nat j / 8) = j / 8)
      by (rewrite Nat2Z.inj_div, Z2Nat.id by lia; reflexivity).
    now replace (Z.to_nat j / 8)%nat with (Z.to_nat (j / 8)) by lia.
  - intros j Hj.
    destruct (Z.leb_spec buffer (buffer + j)), (Z.ltb_spec (buffer + j) (buffer + len));
      try lia; cbn [andb].
    replace (buffer + j - buffer) with j by lia.
    apply store_bytes_outside. lia.
Qed.

Lemma poc_read_above_2G_witness :
  exists r : read_result,
    poc_read (S (Z.to_nat (2 ^ 28))) LittleEndian
             (Kernel (fun _ _ => true) (fun _ => 2 ^ 40) (fun _ => 2 ^ 33))
             [State 1 2] 0 (fun _ => 0) (fun _ => 255) 100 (2 ^ 31 + 16)
      = Some r /\
    rr_ret r = 2 ^ 31 + 16 /\
    rr_reg r = <[0%nat := Nat.iter (Z.to_nat (2 ^ 28)) next_state
                            (get_cpu_ptr [State 1 2] 0)]> [State 1 2] /\
    (forall j, 0 <= j < 2 ^ 31 ->
       rr_user r (100 + j) =
       native_byte LittleEndian
                   (stream_word (get_cpu_ptr [State 1 2] 0) (Z.to_nat (j / 8)))
                   (j mod 8)) /\
    (forall j, 2 ^ 31 <= j < 2 ^ 31 + 16 ->
       rr_user r (100 + j) =
       (fun _ => 255)
         (vmalloc (Kernel (fun _ _ => true) (fun _ => 2 ^ 40) (fun _ => 2 ^ 33))
                  (P2ROUNDUP (2 ^ 31 + 16) 8) + j)).
Proof.
  apply (poc_read_above_2G (S (Z.to_nat (2 ^ 28))) LittleEndian
           (Kernel (fun _ _ => true) (fun _ => 2 ^ 40) (fun _ => 2 ^ 33))
           [State 1 2] 0 (fun _ => 0) (fun _ => 255) 100 (2 ^ 31 + 16)).
  - lia.
  - cbn [length]. lia.
  - apply Nat.lt_succ_diag_r.
  - reflexivity.
  - cbn [vmalloc]. lia.
  - cbn [copy_budget]. lia.
Defined.

(** ** Module load and unload *)

Lemma spl_random_init_enomem (bo : byte_order) (B : boot) :
  alloc_percpu_ok B = false -> spl_random_init bo B = (- ENOMEM, None).
Proof. intros H. unfold spl_random_init. now rewrite H. Qed.

(** X17. Loading the module either succeeds in full or leaves nothing
    behind, and releases nothing twice.  [init_module] stays within the
    contracts of [free_percpu] and [misc_deregister].  It returns 0
    exactly when [__alloc_percpu] and [misc_register] both succeed; then
    the per-CPU block is live with one slot per possible CPU, the device
    is registered, and [cleanup_module] deregisters the device and
    releases the block once, leaving the pointer as it was.  Otherwise it
    returns [-ENOMEM] or the error of [misc_register], with no live block
    and no registered device; from such a state [cleanup_module] would
    deregister a device that is not registered. *)
Theorem init_module_all_or_nothing (bo : byte_order) (B : boot) (misc_err : Z) :
  exists d : driver,
    snd (init_module bo B misc_err) = Some d /\
    (fst (init_module bo B misc_err) = 0 <->
       alloc_percpu_ok B = true /\ misc_err = 0) /\
    (fst (init_module bo B misc_err) = 0 ->
       misc_registered d = true /\
       (exists reg : percpu,
          entropy_area d = Some reg /\ length reg = possible_cpus B) /\
       cleanup_module d = Some (Driver true None false)) /\
    (fst (init_module bo B misc_err) <> 0 ->
       entropy_area d = None /\ misc_registered d = false /\
       fst (init_module bo B misc_err) =
         (if alloc_percpu_ok B then misc_err else - ENOMEM) /\
       cleanup_module d = None).
Proof.
  unfold init_module. destruct (alloc_percpu_ok B) eqn:Ea.
  - destruct (init_slots bo B Ea) as (reg & E & Hl & _). rewrite E.
    cbn [Z.eqb negb entropy_ptr entropy_area misc_registered unloaded].
    destruct (Z.eqb_spec misc_err 0) as [Em|Em]; cbn [negb fst snd].
    + eexists. split; [reflexivity|].
      cbn [entropy_ptr entropy_area misc_registered].
      split; [|split].
      * split; [intros _; now split|reflexivity].
      * intros _. split; [reflexivity|]. split; [|reflexivity].
        exists reg. now split.
      * intros H. contradiction.
    + eexists. split; [reflexivity|].
      cbn [entropy_ptr entropy_area misc_registered].
      split; [|split].
      * split; [intros H; contradiction|intros [_ H]; contradiction].
      * intros H. contradiction.
      * intros _. repeat split; reflexivity.
  - rewrite spl_random_init_enomem by assumption.
    change (negb (- ENOMEM =? 0)) with true. cbn [fst snd].
    eexists. split; [reflexivity|].
    cbn [entropy_ptr entropy_area misc_registered unloaded].
    split; [|split].
    + split; [discriminate|intros [H _]; discriminate].
    + discriminate.
    + intros _. repeat split; reflexivity.
Qed.

(** ** Words in memory *)

Lemma byte_of_eq (w k : Z) : 0 <= k -> byte_of w k = (w / 2 ^ (8 * k)) mod 256.
Proof.
  intros Hk. unfold byte_of. rewrite Z.shiftr_div_pow2 by lia.
  change 255 with (Z.ones 8). now rewrite Z.land_ones by lia.
Qed.

Lemma byte_of_succ (w : Z) (j : nat) :
  byte_of w (Z.of_nat (S j)) = byte_of (w / 256) (Z.of_nat j).
Proof.
  rewrite !byte_of_eq by lia. f_equal.
  rewrite Z.div_div by lia. f_equal.
  rewrite <- (Z.pow_add_r 2 8) by lia. f_equal. lia.
Qed.

Lemma le_combine_bytes (n : nat) : forall w : Z,
  le_combine (map (fun j => byte_of w (Z.of_nat j)) (seq 0 n)) =
  w mod 2 ^ (8 * Z.of_nat n).
Proof.
  induction n as [|n IH]; intros w.
  - cbn. now rewrite Z.mod_1_r.
  - cbn [seq map le_combine]. rewrite <- seq_shift, map_map.
    rewrite (map_ext _ (fun j => byte_of (w / 256) (Z.of_nat j)))
      by (intros j; apply byte_of_succ).
    rewrite IH, byte_of_eq by lia.
    replace (8 * Z.of_nat (S n)) with (8 + 8 * Z.of_nat n) by lia.
    rewrite Z.pow_add_r by lia. change (2 ^ 8) with 256.
    rewrite Z.rem_mul_r by (try apply Z.pow_pos_nonneg; lia).
    change (2 ^ (8 * Z.of_nat 0)) with 1. now rewrite Z.div_1_r.
Qed.

(** The word read back from the eight bytes a word was stored as. *)
Lemma load_union_bytes (bo : byte_order) (w : Z) :
  is_u64 w -> load_u64 bo (union_bytes bo w) = w.
Proof.
  intros Hw.
  assert (E : load_u64 bo (union_bytes bo w)
              = le_combine (map (fun j => byte_of w (Z.of_nat j)) (seq 0 8)))
    by now destruct bo.
  rewrite E, le_combine_bytes. apply Z.mod_small. exact Hw.
Qed.

(** X18. For a request of 1 to [2^31] bytes that [copy_to_user]
    transfers at once, a client that looks at the delivered bytes as
    [uint64_t] values in its own byte order, the same host's, sees the
    outputs of [spl_rand_next] in order: every 8-byte group [q] that lies
    within the [len] bytes is output word [q] of the stream of the CPU
    that served the call, on a little-endian and on a big-endian host
    alike. *)
Theorem poc_read_delivers_words (fuel : nat) (bo : byte_order) (K : kernel)
    (reg : percpu) (cpu : nat) (um km : mem) (buffer len q : Z)
    (Hlen : 0 < len <= 2 ^ 31) (Hcpu : (cpu < length reg)%nat)
    (Hfuel : (words_for len < fuel)%nat)
    (Hacc : access_ok K buffer len = true)
    (Halloc : vmalloc K (P2ROUNDUP len 8) <> 0)
    (Hcopy : len <= copy_budget K 0%nat)
    (Hq : 0 <= q /\ 8 * q + 8 <= len) :
  exists r : read_result,
    poc_read fuel bo K reg cpu um km buffer len = Some r /\
    load_u64 bo (map (fun i => rr_user r (buffer + 8 * q + Z.of_nat i)) (seq 0 8))
    = stream_word (get_cpu_ptr reg cpu) (Z.to_nat q).
Proof.
  unfold poc_read. rewrite Hacc; cbn [negb].
  destruct (Z.eqb_spec (vmalloc K (P2ROUNDUP len 8)) 0); [contradiction|].
  rewrite generate_loop_spec by lia. destruct fuel as [|fuel]; [lia|].
  rewrite copy_loop_complete by lia.
  eexists. split; [reflexivity|]. cbn [rr_user].
  rewrite <- (load_union_bytes bo (stream_word (get_cpu_ptr reg cpu) (Z.to_nat q)))
    by apply spl_rand_next_output_u64.
  f_equal.
  transitivity (map (fun i => native_byte bo
                                (stream_word (get_cpu_ptr reg cpu) (Z.to_nat q))
                                (Z.of_nat i)) (seq 0 8)).
  - apply map_ext_in. intros i Hi. apply in_seq in Hi.
    destruct (Z.leb_spec buffer (buffer + 8 * q + Z.of_nat i)),
             (Z.ltb_spec (buffer + 8 * q + Z.of_nat i) (buffer + len));
      try lia; cbn [andb].
    replace (buffer + 8 * q + Z.of_nat i - buffer) with (8 * q + Z.of_nat i) by lia.
    rewrite scratch_byte by lia.
    replace (8 * q + Z.of_nat i) with (Z.of_nat i + q * 8) by lia.
    rewrite Z.div_add, Z.mod_add, Z.div_small, Z.mod_small by lia.
    reflexivity.
  - now destruct bo.
Qed.

Lemma poc_read_delivers_words_witness :
  exists r : read_result,
    poc_read 5 BigEndian
             (Kernel (fun _ _ => true) (fun _ => 1000) (fun _ => 4096))
             [State 1 2] 0 (fun _ => 0) (fun _ => 0) 100 24 = Some r /\
    load_u64 BigEndian
             (map (fun i => rr_user r (100 + 8 * 2 + Z.of_nat i)) (seq 0 8))
    = stream_word (get_cpu_ptr [State 1 2] 0) (Z.to_nat 2).
Proof.
  apply (poc_read_delivers_words 5 BigEndian
           (Kernel (fun _ _ => true) (fun _ => 1000) (fun _ => 4096))
           [State 1 2] 0 (fun _ => 0) (fun _ => 0) 100 24 2).
  - lia.
  - cbn [length]. lia.
  - vm_compute. lia.
  - reflexivity.
  - cbn [vmalloc]. lia.
  - cbn [copy_budget]. lia.
  - lia.
Defined.
